(** * Blockwise attention, feed-forward and cross-entropy (llamabpt/bpt.py)

    A shallow embedding of [src/llamabpt/bpt.py].  Tensors are nested
    lists laid out exactly as the source indexes them; the element type
    and its arithmetic are the [dtype] of the source, kept abstract as a
    record of operations ([DType]), so that every structural statement
    holds for whatever arithmetic the working precision provides.
    Statements that depend on arithmetic facts are made on [ideal], the
    instance that computes exactly on the reals extended with the IEEE
    special values. *)

From Stdlib Require Import List Arith ZArith Bool Lia Reals Lra.
Import ListNotations.

Set Implicit Arguments.

(** ** The scalar interface *)

(** What the source asks of a [dtype]: the constants and the
    element-wise primitives of [jax.numpy] it calls. *)
Class DType (F : Type) : Type := {
  zero : F;
  one : F;
  neg_inf : F;                 (* -jnp.inf *)
  nan : F;
  finfo_min : F;               (* jnp.finfo(dtype).min *)
  lit_1e_10 : F;               (* the literal 1e-10 *)
  add : F -> F -> F;
  sub : F -> F -> F;
  mul : F -> F -> F;
  div : F -> F -> F;
  maximum : F -> F -> F;       (* jnp.maximum *)
  neg : F -> F;
  fexp : F -> F;               (* jnp.exp *)
  flog : F -> F;               (* jnp.log *)
  fsqrt : F -> F;              (* jnp.sqrt *)
  ltb : F -> F -> bool;        (* x < y *)
  isnan : F -> bool;           (* jnp.isnan, x != x *)
  of_nat : nat -> F            (* integer to floating conversion *)
}.

(** Exceptions the source can raise before any block is processed. *)
Inductive exn : Type :=
| ZeroDivisionError  (* a length taken modulo a chunk size of 0 *)
| EinopsError        (* a length is not a multiple of its chunk size *)
| AttributeError     (* attribute access on None *)
| AssertionError     (* a failed assert *)
| ValueError.        (* scanned arrays of different leading extents *)

Definition result (A : Type) : Type := (exn + A)%type.

Definition bind {A B} (r : result A) (k : A -> result B) : result B :=
  match r with
  | inl e => inl e
  | inr a => k a
  end.

Notation "x <- r ;; k" := (bind r (fun x => k))
  (at level 61, r at next level, right associativity).

(** ** Lists as array axes *)

Section Lists.
Context {A B C : Type}.

Fixpoint zip_with (f : A -> B -> C) (xs : list A) (ys : list B) : list C :=
  match xs, ys with
  | x :: xs', y :: ys' => f x y :: zip_with f xs' ys'
  | _, _ => []
  end.

(** numpy broadcasting along one axis: an axis of length 1 is
    stretched to the other operand's length.  Extents that are neither
    equal nor 1 make numpy raise; the engine never meets them once its
    entry checks have passed, and the last case stands for equal
    extents only. *)
Definition bcast (f : A -> B -> C) (xs : list A) (ys : list B) : list C :=
  match xs, ys with
  | [x], _ => map (f x) ys
  | _, [y] => map (fun x => f x y) xs
  | _, _ => zip_with f xs ys
  end.
End Lists.

(** [lax.scan]: thread a carry through the leading axis, collecting
    the per-step outputs.  Several scanned arrays are zipped along that
    axis, which they share. *)
Fixpoint scan {S X Y : Type} (f : S -> X -> S * Y) (init : S) (xs : list X)
  : S * list Y :=
  match xs with
  | [] => (init, [])
  | x :: xs' =>
      let (s, y) := f init x in
      let (s', ys) := scan f s xs' in
      (s', y :: ys)
  end.

(** One axis of [lax.dynamic_slice]: the start index is clamped so that
    the slice fits. *)
Definition slice1 {A} (start size : nat) (l : list A) : list A :=
  firstn size (skipn (Nat.min start (length l - size)) l).

(** [lax.broadcasted_iota] along the only non-unit axis. *)
Definition iota (n : nat) : list Z := map Z.of_nat (seq 0 n).

(** ** Rank-4 tensors *)

Definition T4 (F : Type) : Type := list (list (list (list F))).

Section Shape.
Context {F : Type}.

Definition dim0 (t : T4 F) : nat := length t.
Definition dim1 (t : T4 F) : nat := length (hd [] t).
Definition dim2 (t : T4 F) : nat := length (hd [] (hd [] t)).
Definition dim3 (t : T4 F) : nat := length (hd [] (hd [] (hd [] t))).

Definition shape4 (t : T4 F) : nat * nat * nat * nat :=
  (dim0 t, dim1 t, dim2 t, dim3 t).

(** [t] is a rectangular array of the given extents. *)
Definition has_shape (n0 n1 n2 n3 : nat) (t : T4 F) : bool :=
  (length t =? n0) &&
  forallb (fun a => (length a =? n1) &&
    forallb (fun b => (length b =? n2) &&
      forallb (fun c => length c =? n3) b) a) t.

Definition full4 (n0 n1 n2 n3 : nat) (x : F) : T4 F :=
  repeat (repeat (repeat (repeat x n3) n2) n1) n0.

Definition map4 {G} (f : F -> G) (t : T4 F) : T4 G :=
  map (map (map (map f))) t.

Definition dynamic_slice4 (t : T4 F) (start size : nat * nat * nat * nat)
  : T4 F :=
  let '(s0, s1, s2, s3) := start in
  let '(n0, n1, n2, n3) := size in
  map (fun a => map (fun b => map (slice1 s3 n3) (slice1 s2 n2 b))
                    (slice1 s1 n1 a))
      (slice1 s0 n0 t).

(** [jnp.moveaxis(t, 1, 2)] *)
Definition moveaxis_1_2 (t : T4 F) : T4 F :=
  map (fun a =>
         map (fun j => map (fun b => nth j b []) a)
             (seq 0 (length (hd [] a))))
      t.
End Shape.

(** Element-wise binary operation with broadcasting on every axis. *)
Definition bop4 {F G H} (f : F -> G -> H) : T4 F -> T4 G -> T4 H :=
  bcast (bcast (bcast (bcast f))).

Definition get4 {F} (d : F) (t : T4 F) (i j k l : nat) : F :=
  nth l (nth k (nth j (nth i t []) []) []) d.

(** [rearrange(t, 'b (c n) ... -> n b c ...', c=c)]: the sequence axis
    is read as [c] rows of [n] consecutive positions, so that block [n]
    holds the positions [ci * n_blocks + n].  einops evaluates
    [len % c], which is a division by zero when [c] is 0, and raises its
    own error when the remainder is not 0. *)
Definition rearrange_split {X} (c : nat) (t : list (list (list X)))
  : result (list (list (list (list X)))) :=
  let len := length (hd [] t) in
  if c =? 0 then inl ZeroDivisionError
  else if len mod c =? 0 then
    let n := len / c in
    inr (map (fun ni =>
                map (fun tb => map (fun ci => nth (ci * n + ni) tb [])
                                   (seq 0 c)) t)
             (seq 0 n))
  else inl EinopsError.

(** [rearrange(res, 'n b c h d -> b (n c) h d')]: block after block. *)
Definition rearrange_merge {X} (batch : nat) (res : list (list (list X)))
  : list (list X) :=
  map (fun b => concat (map (fun r => nth b r []) res)) (seq 0 batch).

(** ** The attention engine *)

Section Attention.
Context {F : Type} {D : DType F}.

Definition of_bool (b : bool) : F := if b then one else zero.

(** [jnp.sum] and [jnp.max] along one axis. *)
Definition sum (l : list F) : F := fold_left add l zero.

Definition max_list (l : list F) : F :=
  match l with
  | [] => neg_inf
  | x :: r => fold_left maximum r x
  end.

Definition dot (u v : list F) : F := sum (zip_with mul u v).

Definition add4 : T4 F -> T4 F -> T4 F := bop4 add.
Definition sub4 : T4 F -> T4 F -> T4 F := bop4 sub.
Definition mul4 : T4 F -> T4 F -> T4 F := bop4 mul.
Definition div4 : T4 F -> T4 F -> T4 F := bop4 div.
Definition maximum4 : T4 F -> T4 F -> T4 F := bop4 maximum.
Definition exp4 : T4 F -> T4 F := map4 fexp.

(** Reductions over the last axis with [keepdims=True]. *)
Definition max_last (t : T4 F) : T4 F :=
  map (map (map (fun row => [max_list row]))) t.
Definition sum_last (t : T4 F) : T4 F :=
  map (map (map (fun row => [sum row]))) t.

(** [jnp.einsum('bqhd,bkhd->bqhk', q, k)]: for every batch row, query
    position and head, the dot products with the keys of that head. *)
Definition einsum_qk (q k : T4 F) : T4 F :=
  zip_with (fun qb kb =>
    map (fun qrow =>
      map (fun h => map (fun krow => dot (nth h qrow []) (nth h krow [])) kb)
          (seq 0 (length qrow)))
        qb)
    q k.

(** [jnp.einsum('bqhv,bvhf->bqhf', w, v)]: for every batch row, query
    position and head, the weights contracted with the values over the
    key axis. *)
Definition einsum_wv (w v : T4 F) : T4 F :=
  zip_with (fun wb vb =>
    map (fun wrow =>
      map (fun h =>
        map (fun f =>
               sum (zip_with (fun wv vrow => mul wv (nth f (nth h vrow []) zero))
                             (nth h wrow []) vb))
            (seq 0 (length (nth h (hd [] vb) []))))
          (seq 0 (length wrow)))
        wb)
    w v.

(** The causal tile: [finfo.min] where the shifted query index is
    below the key index, zero elsewhere. *)
Definition causal_mask_value (query_chunk_size key_chunk_size : nat)
    (offset : Z) : list (list F) :=
  map (fun qi => map (fun ki => mul (of_bool (qi + offset <? ki)%Z) finfo_min)
                     (iota key_chunk_size))
      (iota query_chunk_size).

(** [attn_dropout] is [None] exactly when the caller is in evaluation
    mode or has no positive drop probability, in which case the last
    step is not taken. *)
Definition _chunk_attention_bias (query_chunk_size key_chunk_size : nat)
    (bias : option (T4 F)) (deterministic : bool)
    (attn_dropout : option (T4 bool)) (attn_pdrop : F) (causal : bool)
    (query_chunk_idx key_chunk_idx : nat) : T4 F :=
  let query_offset := query_chunk_idx * query_chunk_size in
  let key_offset := key_chunk_idx * key_chunk_size in
  let chunk_bias := full4 1 1 1 1 zero in
  let chunk_bias :=
    match bias with
    | Some b =>
        dynamic_slice4 b (0, 0, query_offset, key_offset)
          (dim0 b, dim1 b,
           Nat.min (dim2 b) query_chunk_size,
           Nat.min (dim3 b) key_chunk_size)
    | None => chunk_bias
    end in
  let chunk_bias :=
    if causal then
      let offset := (Z.of_nat query_offset - Z.of_nat key_offset)%Z in
      add4 chunk_bias
           [[causal_mask_value query_chunk_size key_chunk_size offset]]
    else chunk_bias in
  let chunk_bias :=
    if negb deterministic && ltb zero attn_pdrop then
      match attn_dropout with
      | Some m =>
          let attn_dropout_slice :=
            dynamic_slice4 m (0, 0, query_offset, key_offset)
              (dim0 m, dim1 m,
               Nat.min (dim2 m) query_chunk_size,
               Nat.min (dim3 m) key_chunk_size) in
          add4 chunk_bias
               (map4 (fun flag => mul (of_bool flag) finfo_min)
                     attn_dropout_slice)
      | None => chunk_bias
      end
    else chunk_bias in
  chunk_bias.

Record Carry : Type := mkCarry {
  numerator : T4 F;
  denominator : T4 F;
  max_so_far : T4 F
}.

Section QueryChunk.
(** What [_query_chunk_attention] closes over. *)
Variable _chunk_bias_fn : nat -> nat -> T4 F.
Variable causal : bool.
Variables batch query_chunk_size num_heads dim_per_head : nat.
Variables key value : list (T4 F).
Variable query_chunk : T4 F.
Variable query_chunk_idx : nat.

Definition scores (key_chunk : T4 F) (key_chunk_idx : nat) : T4 F :=
  let attn_weights := einsum_qk query_chunk key_chunk in
  let bias_chunk := _chunk_bias_fn query_chunk_idx key_chunk_idx in
  let bias_chunk := moveaxis_1_2 bias_chunk in
  add4 attn_weights bias_chunk.

Definition summarize_chunk (carry : Carry) (args : T4 F * T4 F * nat)
  : Carry * unit :=
  let '(key_chunk, value_chunk, key_chunk_idx) := args in
  let prev_max_score := max_so_far carry in
  let attn_weights := scores key_chunk key_chunk_idx in
  let max_score := max_last attn_weights in
  let max_score := maximum4 prev_max_score max_score in
  let exp_weights := exp4 (sub4 attn_weights max_score) in
  let exp_values := einsum_wv exp_weights value_chunk in
  let correction := exp4 (sub4 prev_max_score max_score) in
  let numerator' := add4 (mul4 (numerator carry) correction) exp_values in
  let denominator' :=
    add4 (mul4 (denominator carry) correction) (sum_last exp_weights) in
  (mkCarry numerator' denominator' max_score, tt).

Definition skip_block (key_chunk_idx : nat) : bool :=
  if causal then query_chunk_idx <? key_chunk_idx else false.

Definition skip_upper_half (carry : Carry) (args : T4 F * T4 F * nat)
  : Carry * unit :=
  let '(key_chunk, value_chunk, key_chunk_idx) := args in
  if skip_block key_chunk_idx then (carry, tt)
  else summarize_chunk carry args.

Definition init_carry : Carry :=
  mkCarry
    (full4 batch query_chunk_size num_heads dim_per_head zero)
    (full4 batch query_chunk_size num_heads dim_per_head zero)
    (map4 (mul neg_inf) (full4 batch query_chunk_size num_heads 1 one)).

(** The triples the inner [lax.scan] walks through:
    [xs=(key, value, jnp.arange(0, num_kv))].  [lax.scan] refuses
    scanned arrays of different leading extents; the entry point makes
    that check before the reduction is entered, so that here [key] and
    [value] have the same number of blocks. *)
Definition kv_blocks : list (T4 F * T4 F * nat) :=
  combine (combine key value) (seq 0 (length key)).

Definition _query_chunk_attention : T4 F :=
  let (carry, _) := scan skip_upper_half init_carry kv_blocks in
  div4 (numerator carry) (denominator carry).
End QueryChunk.

(** [dropout_rng] stands for the Bernoulli sample the random stream
    yields, of shape (batch, heads, q_len, kv_len).  Casts between
    precisions ([astype], [float32_logits]) and the options that only
    steer recomputation ([policy], [precision]) have no counterpart in
    a single scalar type and are left out. *)
Definition blockwise_attn (query key value : T4 F) (bias : option (T4 F))
    (deterministic : bool) (dropout_rng : T4 bool) (attn_pdrop : F)
    (causal : bool) (query_chunk_size key_chunk_size : nat)
  : result (T4 F) :=
  let scale := fsqrt (of_nat (dim3 query)) in
  let query := map4 (fun x => div x scale) query in
  let q_len := dim1 query in
  let kv_len := dim1 key in
  let batch := dim0 query in
  let num_heads := dim2 query in
  let dim_per_head := dim3 query in
  query <- rearrange_split query_chunk_size query ;;
  key <- rearrange_split key_chunk_size key ;;
  value <- rearrange_split key_chunk_size value ;;
  let num_q := length query in
  match bias with
  | None => inl AttributeError
  | Some b =>
      if forallb (fun p => (fst p =? 1) || (fst p =? snd p))
           (combine [dim0 b; dim1 b; dim2 b; dim3 b]
                    [batch; num_heads; q_len; kv_len])
      then
        let attn_dropout :=
          if negb deterministic && ltb zero attn_pdrop
          then Some dropout_rng else None in
        let _chunk_bias_fn :=
          _chunk_attention_bias query_chunk_size key_chunk_size bias
            deterministic attn_dropout attn_pdrop causal in
        (* the inner scan is traced once, whatever the number of query
           blocks, and refuses key and value blocks of different counts *)
        if length key =? length value then
          let (_, res) :=
            scan (fun (_ : unit) x =>
                    (tt, _query_chunk_attention _chunk_bias_fn causal batch
                           query_chunk_size num_heads dim_per_head key value
                           (fst x) (snd x)))
                 tt (combine query (seq 0 num_q)) in
          inr (rearrange_merge batch res)
        else inl ValueError
      else inl AssertionError
  end.
End Attention.

(** ** Exact arithmetic with the IEEE special values *)

(** The idealised working precision: operations are exact on finite
    values and follow IEEE 754 on infinities and NaN (zero is unsigned). *)
Inductive xreal : Type :=
| Fin (r : R)
| PInf
| NInf
| NaN.

Module Ideal.
Local Open Scope R_scope.

Definition Rsign (r : R) : comparison :=
  match total_order_T r 0 with
  | inleft (left _) => Lt
  | inleft (right _) => Eq
  | inright _ => Gt
  end.

Definition xneg (x : xreal) : xreal :=
  match x with
  | Fin r => Fin (- r)
  | PInf => NInf
  | NInf => PInf
  | NaN => NaN
  end.

Definition xadd (x y : xreal) : xreal :=
  match x, y with
  | Fin a, Fin b => Fin (a + b)
  | NaN, _ | _, NaN => NaN
  | PInf, NInf | NInf, PInf => NaN
  | PInf, _ | _, PInf => PInf
  | NInf, _ | _, NInf => NInf
  end.

Definition xsub (x y : xreal) : xreal := xadd x (xneg y).

Definition signed_inf (c : comparison) (x : xreal) : xreal :=
  match c with
  | Gt => x
  | Lt => xneg x
  | Eq => NaN
  end.

Definition xmul (x y : xreal) : xreal :=
  match x, y with
  | Fin a, Fin b => Fin (a * b)
  | NaN, _ | _, NaN => NaN
  | Fin a, inf => signed_inf (Rsign a) inf
  | inf, Fin b => signed_inf (Rsign b) inf
  | PInf, PInf | NInf, NInf => PInf
  | PInf, NInf | NInf, PInf => NInf
  end.

Definition xdiv (x y : xreal) : xreal :=
  match x, y with
  | Fin a, Fin b =>
      match Rsign b with
      | Eq => signed_inf (Rsign a) PInf
      | _ => Fin (a / b)
      end
  | NaN, _ | _, NaN => NaN
  | Fin _, _ => Fin 0
  | inf, Fin b =>
      match Rsign b with
      | Lt => xneg inf
      | _ => inf
      end
  | _, _ => NaN
  end.

Definition xmax (x y : xreal) : xreal :=
  match x, y with
  | Fin a, Fin b => Fin (Rmax a b)
  | NaN, _ | _, NaN => NaN
  | PInf, _ | _, PInf => PInf
  | NInf, z | z, NInf => z
  end.

Definition xexp (x : xreal) : xreal :=
  match x with
  | Fin r => Fin (Rtrigo_def.exp r)
  | PInf => PInf
  | NInf => Fin 0
  | NaN => NaN
  end.

Definition xlog (x : xreal) : xreal :=
  match x with
  | Fin r =>
      match Rsign r with
      | Gt => Fin (ln r)
      | Eq => NInf
      | Lt => NaN
      end
  | PInf => PInf
  | _ => NaN
  end.

Definition xsqrt (x : xreal) : xreal :=
  match x with
  | Fin r =>
      match Rsign r with
      | Lt => NaN
      | _ => Fin (R_sqrt.sqrt r)
      end
  | PInf => PInf
  | _ => NaN
  end.

Definition xltb (x y : xreal) : bool :=
  match x, y with
  | Fin a, Fin b => if Rlt_dec a b then true else false
  | NaN, _ | _, NaN => false
  | _, NInf | PInf, _ => false
  | _, _ => true
  end.

Definition xisnan (x : xreal) : bool :=
  match x with
  | NaN => true
  | _ => false
  end.

(** [jnp.finfo(jnp.float32).min], the working precision taken for
    [ideal]. *)
Definition float32_min : R := - ((2 - / 2 ^ 23) * 2 ^ 127).
End Ideal.

#[export] Instance ideal : DType xreal := {|
  zero := Fin 0;
  one := Fin 1;
  neg_inf := NInf;
  nan := NaN;
  finfo_min := Fin Ideal.float32_min;
  lit_1e_10 := Fin (/ 10 ^ 10);
  add := Ideal.xadd;
  sub := Ideal.xsub;
  mul := Ideal.xmul;
  div := Ideal.xdiv;
  maximum := Ideal.xmax;
  neg := Ideal.xneg;
  fexp := Ideal.xexp;
  flog := Ideal.xlog;
  fsqrt := Ideal.xsqrt;
  ltb := Ideal.xltb;
  isnan := Ideal.xisnan;
  of_nat := fun n => Fin (INR n)
|}.

(** ** The direct computation the attention engine is compared with *)

Section Reference.
Context {F : Type} {D : DType F}.

(** The specification's reference: softmax over all keys at once of
    the scaled scores plus bias (plus the causal tile over the whole
    sequence), contracted with the values.  No chunking, no carry. *)
Definition reference_attn (query key value bias : T4 F) (causal : bool)
  : T4 F :=
  let scale := fsqrt (of_nat (dim3 query)) in
  let query := map4 (fun x => div x scale) query in
  let tile :=
    if causal then
      add4 bias [[causal_mask_value (dim1 query) (dim1 key) 0]]
    else bias in
  let s := add4 (einsum_qk query key) (moveaxis_1_2 tile) in
  let w := exp4 (sub4 s (max_last s)) in
  div4 (einsum_wv w value) (sum_last w).
End Reference.

(** ** The chunked point-wise transform *)

Section FFN.
Context {X Y : Type}.

(** The cell's [forward_ffn], on a (batch, positions, features) array. *)
Variable forward_ffn : list (list (list X)) -> bool -> list (list (list Y)).

Definition ffn (deterministic : bool) (carry : unit)
    (hidden_states : list (list (list X)))
  : unit * list (list (list Y)) :=
  let outputs := forward_ffn hidden_states deterministic in
  (carry, outputs).

(** [rearrange(inputs, 'b (c n) d -> b c n d', c=chunk_size)] *)
Definition rearrange_bcn (c : nat) (inputs : list (list (list X)))
  : result (list (list (list (list X)))) :=
  let len := length (hd [] inputs) in
  if c =? 0 then inl ZeroDivisionError
  else if len mod c =? 0 then
    let n := len / c in
    inr (map (fun xb =>
                map (fun ci => map (fun ni => nth (ci * n + ni) xb [])
                                   (seq 0 n))
                    (seq 0 c))
             inputs)
  else inl EinopsError.

(** The slices [nn.scan] feeds to the cell with [in_axes = 2]. *)
Definition scan_inputs (n : nat) (inputs : list (list (list (list X))))
  : list (list (list (list X))) :=
  map (fun ni => map (map (fun row => nth ni row [])) inputs) (seq 0 n).

(** Stacking the per-step outputs with [out_axes = 2]; the batch and
    block extents are those of the input. *)
Definition scan_outputs (batch c : nat) (ys : list (list (list (list Y))))
  : list (list (list (list Y))) :=
  map (fun b => map (fun ci => map (fun y => nth ci (nth b y []) []) ys)
                    (seq 0 c))
      (seq 0 batch).

Definition blockwise_ffn (inputs : list (list (list X))) (chunk_size : nat)
    (deterministic : bool) : result (list (list (list Y))) :=
  let len := length (hd [] inputs) in
  inputs4 <- rearrange_bcn chunk_size inputs ;;
  let (_, ys) :=
    scan (ffn deterministic) tt
         (scan_inputs (len / chunk_size) inputs4) in
  let res := scan_outputs (length inputs) chunk_size ys in
  (* rearrange(res, 'b c n d -> b (c n) d') *)
  inr (map (@concat _) res).

(** A deterministic, stateless transform that acts on every position
    of every batch row on its own. *)
Definition per_position (deterministic : bool) : Prop :=
  exists f : list X -> list Y,
    forall hidden_states,
      forward_ffn hidden_states deterministic = map (map f) hidden_states.
End FFN.

(** ** The chunked loss aggregator *)

Section Loss.
Context {F : Type} {D : DType F}.

(** [jax.nn.log_softmax] along the last axis. *)
Definition log_softmax (row : list F) : list F :=
  let m := max_list row in
  let shifted := map (fun x => sub x m) row in
  let lse := flog (sum (map fexp shifted)) in
  map (fun x => sub x lse) shifted.

(** [jnp.argmax]: the index of the first NaN when the row has one,
    otherwise the first index holding the largest entry.  The running
    best is kept once it is NaN; before that an entry replaces it when
    it is NaN or strictly larger. *)
Fixpoint argmax_from (i best : nat) (bv : F) (l : list F) : nat :=
  match l with
  | [] => best
  | x :: r =>
      if negb (isnan bv) && (isnan x || ltb bv x)
      then argmax_from (S i) i x r
      else argmax_from (S i) best bv r
  end.

Definition argmax (row : list F) : nat :=
  match row with
  | [] => 0
  | x :: r => argmax_from 1 0 x r
  end.

Definition count_true (l : list bool) : nat := length (filter (fun b => b) l).

Definition loss_acc (logits : list (list F)) (tokens : list nat)
    (valid : list F) : list F * list bool * F :=
  let valid_text_length := maximum (sum valid) lit_1e_10 in
  let token_log_prob :=
    zip_with (fun row tok => nth tok (log_softmax row) nan) logits tokens in
  let token_log_prob :=
    zip_with (fun v t => if ltb zero v then t else zero)
             valid token_log_prob in
  let correct :=
    zip_with (fun v c => if ltb zero v then c else false) valid
             (zip_with (fun row tok => argmax row =? tok) logits tokens) in
  (token_log_prob, correct, valid_text_length).

Definition _loss_and_accuracy (carry : F * F * nat)
    (args : list (list F) * list nat * list F) : (F * F * nat) * unit :=
  let '(loss, accuracy, num) := carry in
  let '(logits, tokens, valid) := args in
  let '(token_log_prob, correct, valid_text_length) :=
    loss_acc logits tokens valid in
  let loss := add loss (div (sum token_log_prob) valid_text_length) in
  let accuracy :=
    add accuracy (div (of_nat (count_true correct)) valid_text_length) in
  let num := num + 1 in
  ((loss, accuracy, num), tt).

(** [rearrange(x, '(n c) ... -> n c ...', c=c)]: consecutive blocks. *)
Definition chunks {A} (c : nat) (l : list A) : list (list A) :=
  map (fun i => firstn c (skipn (i * c) l)) (seq 0 (length l / c)).

Definition rearrange_nc {A} (c : nat) (l : list A) : result (list (list A)) :=
  if c =? 0 then inl ZeroDivisionError
  else if length l mod c =? 0 then inr (chunks c l)
  else inl EinopsError.

Definition blockwise_cross_entropy (logits : list (list (list F)))
    (tokens : list (list nat)) (chunk_size : nat)
    (valid : option (list (list F))) : result (F * F) :=
  let valid :=
    match valid with
    | None => map (map (fun _ => one)) tokens
    | Some v => v
    end in
  let logits := concat logits in
  let tokens := concat tokens in
  let valid := concat valid in
  logits <- rearrange_nc chunk_size logits ;;
  tokens <- rearrange_nc chunk_size tokens ;;
  valid <- rearrange_nc chunk_size valid ;;
  (* lax.scan refuses scanned arrays of different leading extents *)
  if (length logits =? length tokens) && (length tokens =? length valid)
  then
    let '((loss, accuracy, num), _) :=
      scan _loss_and_accuracy (zero, zero, 0)
           (combine (combine logits tokens) valid) in
    let loss := div (neg loss) (of_nat num) in
    let accuracy := div accuracy (of_nat num) in
    inr (loss, accuracy)
  else inl ValueError.

(** The aggregation as the specification words it: per-block
    contributions, summed in block order and averaged. *)
Definition block_valid_count (valid : list F) : F :=
  maximum (sum valid) lit_1e_10.

Definition block_loss_contribution
    (blk : list (list F) * list nat * list F) : F :=
  let '(logits, tokens, valid) := blk in
  div (sum (zip_with (fun v t => if ltb zero v then t else zero) valid
              (zip_with (fun row tok => nth tok (log_softmax row) nan)
                        logits tokens)))
      (block_valid_count valid).

Definition block_accuracy_contribution
    (blk : list (list F) * list nat * list F) : F :=
  let '(logits, tokens, valid) := blk in
  div (of_nat (count_true
         (zip_with (fun v c => if ltb zero v then c else false) valid
            (zip_with (fun row tok => argmax row =? tok) logits tokens))))
      (block_valid_count valid).
End Loss.

(** ** Arrays given by their entries *)

(** [tab n g] is the axis whose entry at [i] is [g i]; [tab4] the rank-4
    array of the given extents.  Statements about the engine give its
    arrays in this form, entry by entry. *)
Definition tab {A} (n : nat) (g : nat -> A) : list A := map g (seq 0 n).

Definition tab4 {A} (n0 n1 n2 n3 : nat) (g : nat -> nat -> nat -> nat -> A)
  : T4 A :=
  tab n0 (fun i => tab n1 (fun j => tab n2 (fun k => tab n3 (g i j k)))).

(** Broadcasting of two extents, and of an index into an extent. *)
Definition bdim (n m : nat) : nat := if n =? 1 then m else n.
Definition bidx (n i : nat) : nat := if n =? 1 then 0 else i.
Definition compat (n m : nat) : Prop := n = m \/ n = 1 \/ m = 1.

(** ** The online-softmax rule on entries *)

Section OnlineSoftmaxRule.
Context {F : Type} {D : DType F}.

(** Entries of the scores, the previous running max, the previous
    numerator and denominator, and the value block; [K] keys. *)
Variables sc prev num den vc : nat -> nat -> nat -> nat -> F.
Variable K : nat.

Definition new_max (b q h : nat) : F :=
  maximum (prev b q h 0) (max_list (tab K (sc b q h))).

Definition exp_weights (b q h k : nat) : F :=
  fexp (sub (sc b q h k) (new_max b q h)).

Definition correction (b q h : nat) : F :=
  fexp (sub (prev b q h 0) (new_max b q h)).

Definition numerator_update (b q h f : nat) : F :=
  add (mul (num b q h f) (correction b q h))
      (sum (tab K (fun k => mul (exp_weights b q h k) (vc b k h f)))).

Definition denominator_update (b q h f : nat) : F :=
  add (mul (den b q h f) (correction b q h))
      (sum (tab K (exp_weights b q h))).
End OnlineSoftmaxRule.

(** A validity entry: 0 or 1. *)
Definition indicator (v : xreal) : Prop := v = Fin 0 \/ v = Fin 1.

(** ** Concrete inputs *)

(** One batch row, one head, head dimension 1.  Four query positions of
    which only position 2 is non-zero; two keys and two values. *)
Module Example1.
Definition query : T4 xreal := [[ [[Fin 0]]; [[Fin 0]]; [[Fin 1]]; [[Fin 0]] ]].
Definition key : T4 xreal := [[ [[Fin 0]]; [[Fin 1]] ]].
Definition value : T4 xreal := [[ [[Fin 0]]; [[Fin 1]] ]].
Definition bias : T4 xreal := [[[[Fin 0]]]].
End Example1.

(** Four positions with zero queries and keys; the two value arrays
    differ at position 2 only. *)
Module Example2.
Definition query : T4 xreal := [[ [[Fin 0]]; [[Fin 0]]; [[Fin 0]]; [[Fin 0]] ]].
Definition key : T4 xreal := [[ [[Fin 0]]; [[Fin 0]]; [[Fin 0]]; [[Fin 0]] ]].
Definition value : T4 xreal := [[ [[Fin 0]]; [[Fin 0]]; [[Fin 0]]; [[Fin 0]] ]].
Definition value' : T4 xreal := [[ [[Fin 0]]; [[Fin 0]]; [[Fin 1]]; [[Fin 0]] ]].
Definition bias : T4 xreal := [[[[Fin 0]]]].
End Example2.

(** A single query, key and value, and a one-token classification
    problem over two classes. *)
Module Example3.
Definition query_chunk : T4 xreal := [[[[Fin 1]]]].
Definition key_chunk : T4 xreal := [[[[Fin 1]]]].
Definition value_chunk : T4 xreal := [[[[Fin 2]]]].
Definition no_bias (_ _ : nat) : T4 xreal := [[[[Fin 0]]]].
Definition mask : T4 bool := [[[[true]]]].
Definition logits : list (list (list xreal)) := [[[Fin 0; Fin 0]]].
Definition tokens : list (list nat) := [[0]].
Definition valid : list (list xreal) := [[Fin 1]].
Definition successors (hidden_states : list (list (list nat)))
    (deterministic : bool) : list (list (list nat)) :=
  map (map (map S)) hidden_states.
Definition inputs : list (list (list nat)) := [[[1]; [2]; [3]; [4]]].
End Example3.

(** ** Entry conditions *)

(** The broadcast condition the entry point asserts on the bias shape,
    against (batch, heads, q_len, kv_len). *)
Definition bias_broadcastable {F} (b query key : T4 F) : Prop :=
  (dim0 b = 1 \/ dim0 b = dim0 query) /\
  (dim1 b = 1 \/ dim1 b = dim2 query) /\
  (dim2 b = 1 \/ dim2 b = dim1 query) /\
  (dim3 b = 1 \/ dim3 b = dim1 key).

(** ** The causal comparison *)

(** The boolean array [query_idx < key_idx] that [_chunk_attention_bias]
    multiplies by [finfo.min], for a given offset. *)
Definition causal_flags (query_chunk_size key_chunk_size : nat) (offset : Z)
  : list (list bool) :=
  map (fun qi => map (fun ki => (qi + offset <? ki)%Z) (iota key_chunk_size))
      (iota query_chunk_size).

(** ** Shapes *)

(** [t] is rectangular and every axis has length 1 or the given
    extent: it broadcasts against an array of extents (n0, n1, n2, n3). *)
Definition broadcasts_to {A} (n0 n1 n2 n3 : nat) (t : T4 A) : Prop :=
  exists d0 d1 d2 d3,
    has_shape d0 d1 d2 d3 t = true /\
    (d0 = 1 \/ d0 = n0) /\ (d1 = 1 \/ d1 = n1) /\
    (d2 = 1 \/ d2 = n2) /\ (d3 = 1 \/ d3 = n3).

(** The shapes [init_carry] gives the three components of a carry. *)
Definition carry_shaped {F} (nb nq nh nd : nat) (c : @Carry F) : Prop :=
  has_shape nb nq nh nd (numerator c) = true /\
  has_shape nb nq nh nd (denominator c) = true /\
  has_shape nb nq nh 1 (max_so_far c) = true.

(** Block [ni] of a rectangular array cut along its sequence axis in [n]
    blocks of size [c], as [rearrange_split] cuts it: row [ci] of the
    block is row [ci * n + ni] of the array. *)
Definition block_of {A} (d : A) (n c nb nh nd : nat) (t : T4 A) (ni : nat)
  : T4 A :=
  tab4 nb c nh nd (fun b ci h f => get4 d t b (ci * n + ni) h f).


(** ** Log-probabilities over the reals *)

(** The sum and the largest entry of a row of reals, and the
    log-probability that the soft-max of a row of finite logits gives
    to a token. *)
Definition Rsum (l : list R) : R := fold_right Rplus 0%R l.

Definition Rmax_list (row : list R) : R :=
  match row with
  | [] => 0%R
  | x :: r => fold_left Rmax r x
  end.

Definition log_prob (row : list R) (tok : nat) : R :=
  (nth tok row 0 - Rmax_list row
   - ln (Rsum (map (fun x => Rtrigo_def.exp (x - Rmax_list row)) row)))%R.

(** * Properties *)

(** ** Lists *)

Lemma tab_length {A} n (g : nat -> A) : length (tab n g) = n.
Proof. unfold tab. now rewrite length_map, length_seq. Qed.

Lemma tab_same_length {A B} n (g : nat -> A) (h : nat -> B) :
  (length (tab n g) =? length (tab n h)) = true.
Proof. rewrite !tab_length. apply Nat.eqb_refl. Qed.

Lemma nth_tab {A} n (g : nat -> A) i d : i < n -> nth i (tab n g) d = g i.
Proof.
  intros Hi. unfold tab.
  rewrite (nth_indep _ d (g 0)) by now rewrite length_map, length_seq.
  rewrite (map_nth g (seq 0 n) 0 i), seq_nth; auto.
Qed.

Lemma tab_ext {A} n (g h : nat -> A) :
  (forall i, i < n -> g i = h i) -> tab n g = tab n h.
Proof.
  intros E. unfold tab. apply map_ext_in.
  intros i Hi. apply in_seq in Hi. apply E. lia.
Qed.

Lemma tab_S {A} n (g : nat -> A) : tab (S n) g = g 0 :: tab n (fun i => g (S i)).
Proof. unfold tab. simpl. now rewrite <- seq_shift, map_map. Qed.

Lemma list_as_tab {A} (l : list A) d : l = tab (length l) (fun i => nth i l d).
Proof.
  induction l as [|x l IH]; [reflexivity|].
  simpl length. rewrite tab_S. simpl. now rewrite <- IH.
Qed.

Lemma map_tab {A B} (f : A -> B) n g : map f (tab n g) = tab n (fun i => f (g i)).
Proof. unfold tab. now rewrite map_map. Qed.

Lemma zip_with_tab {A B C} (f : A -> B -> C) n g h :
  zip_with f (tab n g) (tab n h) = tab n (fun i => f (g i) (h i)).
Proof.
  revert g h. induction n as [|n IH]; intros g h; [reflexivity|].
  rewrite !tab_S. simpl. now rewrite IH.
Qed.

Lemma bidx_same n i : i < n -> bidx n i = i.
Proof. unfold bidx. destruct (Nat.eqb_spec n 1); lia. Qed.

Lemma bcast_tab {A B C} (f : A -> B -> C) n m g h :
  compat n m ->
  bcast f (tab n g) (tab m h) =
  tab (bdim n m) (fun i => f (g (bidx n i)) (h (bidx m i))).
Proof.
  intros Hc. unfold bdim.
  destruct (Nat.eqb_spec n 1) as [->|Hn].
  - change (tab 1 g) with [g 0]. unfold bcast. rewrite map_tab.
    apply tab_ext. intros i Hi. now rewrite (@bidx_same m i).
  - assert (Hx : bcast f (tab n g) (tab m h) =
                 match tab m h with
                 | [y] => map (fun x => f x y) (tab n g)
                 | _ => zip_with f (tab n g) (tab m h)
                 end).
    { unfold bcast. destruct n as [|[|n]]; [reflexivity|lia|].
      now rewrite !tab_S. }
    rewrite Hx. destruct (Nat.eq_dec m 1) as [->|Hm].
    + change (tab 1 h) with [h 0]. cbv beta iota. rewrite map_tab.
      apply tab_ext. intros i Hi. unfold bidx.
      destruct (Nat.eqb_spec n 1); [lia|]. reflexivity.
    + assert (n = m) as <- by (unfold compat in Hc; lia).
      assert (Hy : match tab n h with
                   | [y] => map (fun x => f x y) (tab n g)
                   | _ => zip_with f (tab n g) (tab n h)
                   end = zip_with f (tab n g) (tab n h)).
      { destruct n as [|[|n]]; [reflexivity|lia|]. now rewrite !tab_S. }
      rewrite Hy, zip_with_tab. apply tab_ext. intros i Hi.
      unfold bidx. destruct (Nat.eqb_spec n 1); [lia|]. reflexivity.
Qed.

Lemma bdim_same n : bdim n n = n.
Proof. unfold bdim. destruct (Nat.eqb_spec n 1); congruence. Qed.

Lemma bdim_1_r n : bdim n 1 = n.
Proof. unfold bdim. destruct (Nat.eqb_spec n 1); congruence. Qed.

Lemma compat_same n : compat n n.
Proof. now left. Qed.

Lemma compat_1_r n : compat n 1.
Proof. right. now right. Qed.

Lemma compat_1_l n : compat 1 n.
Proof. right. now left. Qed.

Create HintDb shapes.
#[local] Hint Resolve compat_same compat_1_r compat_1_l : shapes.

Lemma forallb_nth {A} (P : A -> bool) l i d :
  forallb P l = true -> i < length l -> P (nth i l d) = true.
Proof.
  intros H Hi. rewrite forallb_forall in H. apply H. now apply nth_In.
Qed.

(** ** Arrays by entries *)

Lemma tab4_ext {A} n0 n1 n2 n3 (g h : nat -> nat -> nat -> nat -> A) :
  (forall i j k l, i < n0 -> j < n1 -> k < n2 -> l < n3 ->
                   g i j k l = h i j k l) ->
  tab4 n0 n1 n2 n3 g = tab4 n0 n1 n2 n3 h.
Proof.
  intros E. unfold tab4.
  apply tab_ext; intros i Hi. apply tab_ext; intros j Hj.
  apply tab_ext; intros k Hk. apply tab_ext; intros l Hl. now apply E.
Qed.

Lemma get4_tab4 {A} n0 n1 n2 n3 (g : nat -> nat -> nat -> nat -> A) d i j k l :
  i < n0 -> j < n1 -> k < n2 -> l < n3 ->
  get4 d (tab4 n0 n1 n2 n3 g) i j k l = g i j k l.
Proof.
  intros Hi Hj Hk Hl. unfold get4, tab4.
  now rewrite !nth_tab.
Qed.

Lemma shape_as_tab4 {A} n0 n1 n2 n3 (t : T4 A) d :
  has_shape n0 n1 n2 n3 t = true -> t = tab4 n0 n1 n2 n3 (get4 d t).
Proof.
  unfold has_shape, tab4, get4. intros H.
  apply andb_prop in H as [H0 H]. apply Nat.eqb_eq in H0. subst n0.
  rewrite (list_as_tab t []) at 1. apply tab_ext. intros i Hi.
  pose proof (forallb_nth _ t [] H Hi) as H1. cbv beta in H1.
  apply andb_prop in H1 as [H1 H']. apply Nat.eqb_eq in H1. subst n1.
  rewrite (list_as_tab (nth i t []) []) at 1. apply tab_ext. intros j Hj.
  pose proof (forallb_nth _ (nth i t []) [] H' Hj) as H2. cbv beta in H2.
  apply andb_prop in H2 as [H2 H'']. apply Nat.eqb_eq in H2. subst n2.
  rewrite (list_as_tab (nth j (nth i t []) []) []) at 1.
  apply tab_ext. intros k Hk.
  pose proof (forallb_nth _ (nth j (nth i t []) []) [] H'' Hk) as H3.
  cbv beta in H3. apply Nat.eqb_eq in H3. subst n3.
  apply list_as_tab.
Qed.

Lemma bop4_tab4 {A B C} (f : A -> B -> C) n0 n1 n2 n3 m0 m1 m2 m3 g h :
  compat n0 m0 -> compat n1 m1 -> compat n2 m2 -> compat n3 m3 ->
  bop4 f (tab4 n0 n1 n2 n3 g) (tab4 m0 m1 m2 m3 h) =
  tab4 (bdim n0 m0) (bdim n1 m1) (bdim n2 m2) (bdim n3 m3)
       (fun i j k l =>
          f (g (bidx n0 i) (bidx n1 j) (bidx n2 k) (bidx n3 l))
            (h (bidx m0 i) (bidx m1 j) (bidx m2 k) (bidx m3 l))).
Proof.
  intros C0 C1 C2 C3. unfold bop4, tab4.
  rewrite bcast_tab by assumption. apply tab_ext; intros i _.
  rewrite bcast_tab by assumption. apply tab_ext; intros j _.
  rewrite bcast_tab by assumption. apply tab_ext; intros k _.
  now rewrite bcast_tab.
Qed.

Lemma map4_tab4 {A B} (f : A -> B) n0 n1 n2 n3 g :
  map4 f (tab4 n0 n1 n2 n3 g) =
  tab4 n0 n1 n2 n3 (fun i j k l => f (g i j k l)).
Proof.
  unfold map4, tab4. rewrite map_tab. apply tab_ext; intros i _.
  rewrite map_tab. apply tab_ext; intros j _.
  rewrite map_tab. apply tab_ext; intros k _.
  now rewrite map_tab.
Qed.

Lemma scan_stateless {X Y} (g : X -> Y) (xs : list X) :
  scan (fun (_ : unit) x => (tt, g x)) tt xs = (tt, map g xs).
Proof.
  induction xs as [|x xs IH]; [reflexivity|].
  simpl. now rewrite IH.
Qed.

(** ** The accumulator update, entry by entry *)

Section UpdateLemmas.
Context {F : Type} {D : DType F}.

Lemma max_last_tab4 n0 n1 n2 n3 (g : nat -> nat -> nat -> nat -> F) :
  max_last (tab4 n0 n1 n2 n3 g) =
  tab4 n0 n1 n2 1 (fun i j k _ => max_list (tab n3 (g i j k))).
Proof.
  unfold max_last, tab4. rewrite map_tab. apply tab_ext; intros i _.
  rewrite map_tab. apply tab_ext; intros j _.
  rewrite map_tab. reflexivity.
Qed.

Lemma sum_last_tab4 n0 n1 n2 n3 (g : nat -> nat -> nat -> nat -> F) :
  sum_last (tab4 n0 n1 n2 n3 g) =
  tab4 n0 n1 n2 1 (fun i j k _ => sum (tab n3 (g i j k))).
Proof.
  unfold sum_last, tab4. rewrite map_tab. apply tab_ext; intros i _.
  rewrite map_tab. apply tab_ext; intros j _.
  rewrite map_tab. reflexivity.
Qed.

Lemma einsum_wv_tab4 nb nq nh nk nf (w v : nat -> nat -> nat -> nat -> F) :
  0 < nk ->
  einsum_wv (tab4 nb nq nh nk w) (tab4 nb nk nh nf v) =
  tab4 nb nq nh nf
       (fun b q h f => sum (tab nk (fun k => mul (w b q h k) (v b k h f)))).
Proof.
  intros Hk. unfold einsum_wv, tab4.
  rewrite zip_with_tab. apply tab_ext; intros b _.
  rewrite map_tab. apply tab_ext; intros q _.
  rewrite tab_length. apply tab_ext; intros h Hh.
  assert (Hlen : length (nth h (hd [] (tab nk (fun j =>
             tab nh (fun k => tab nf (v b j k))))) []) = nf).
  { destruct nk as [|nk]; [lia|]. rewrite tab_S. simpl hd.
    now rewrite nth_tab, tab_length. }
  rewrite Hlen. apply tab_ext; intros f Hf.
  rewrite nth_tab by assumption. rewrite zip_with_tab.
  f_equal. apply tab_ext; intros k Hk'.
  now rewrite !nth_tab.
Qed.
End UpdateLemmas.

Section Update.
Context {F : Type} {D : DType F}.

Ltac same_index :=
  repeat match goal with
         | H : ?i < ?n |- context [bidx ?n ?i] => rewrite (bidx_same H)
         end.

Lemma summarize_on_entries nb nq nh nk nf nd
      (sc prev num den vc : nat -> nat -> nat -> nat -> F) :
  0 < nk ->
  let attn_weights := tab4 nb nq nh nk sc in
  let prev_max_score := tab4 nb nq nh 1 prev in
  let max_score := maximum4 prev_max_score (max_last attn_weights) in
  let exp_weights' := exp4 (sub4 attn_weights max_score) in
  let correction' := exp4 (sub4 prev_max_score max_score) in
  max_score = tab4 nb nq nh 1 (fun b q h _ => new_max sc prev nk b q h) /\
  add4 (mul4 (tab4 nb nq nh nf num) correction')
       (einsum_wv exp_weights' (tab4 nb nk nh nf vc)) =
  tab4 nb nq nh nf (numerator_update sc prev num vc nk) /\
  add4 (mul4 (tab4 nb nq nh nd den) correction') (sum_last exp_weights') =
  tab4 nb nq nh nd (denominator_update sc prev den nk).
Proof.
  intros Hk attn_weights prev_max_score max_score exp_weights' correction'.
  assert (Emax : max_score =
            tab4 nb nq nh 1 (fun b q h _ => new_max sc prev nk b q h)).
  { unfold max_score, prev_max_score, attn_weights, maximum4.
    rewrite max_last_tab4, bop4_tab4 by auto with shapes.
    rewrite ?bdim_same, ?bdim_1_r. apply tab4_ext. intros b q h l Hb Hq Hh Hl.
    same_index. assert (l = 0) as -> by lia.
    reflexivity. }
  assert (Eexp : exp_weights' = tab4 nb nq nh nk (exp_weights sc prev nk)).
  { unfold exp_weights', exp4, sub4, attn_weights. rewrite Emax.
    rewrite bop4_tab4, map4_tab4 by auto with shapes.
    rewrite ?bdim_same, ?bdim_1_r. apply tab4_ext.
    intros b q h k Hb Hq Hh Hk'.
    now same_index. }
  assert (Ecor : correction' = tab4 nb nq nh 1
                   (fun b q h _ => correction sc prev nk b q h)).
  { unfold correction', exp4, sub4, prev_max_score. rewrite Emax.
    rewrite bop4_tab4, map4_tab4 by auto with shapes.
    rewrite ?bdim_same, ?bdim_1_r. apply tab4_ext. intros b q h l Hb Hq Hh Hl.
    same_index. assert (l = 0) as -> by lia.
    reflexivity. }
  split; [exact Emax|]. rewrite Ecor, Eexp. split.
  - rewrite einsum_wv_tab4 by assumption. unfold add4, mul4.
    rewrite !bop4_tab4 by (rewrite ?bdim_same, ?bdim_1_r; auto with shapes).
    rewrite ?bdim_same, ?bdim_1_r, ?bdim_same. apply tab4_ext.
    intros b q h f Hb Hq Hh Hf.
    rewrite ?bdim_same, ?bdim_1_r.
    now same_index.
  - rewrite sum_last_tab4. unfold add4, mul4.
    rewrite !bop4_tab4 by (rewrite ?bdim_same, ?bdim_1_r; auto with shapes).
    rewrite ?bdim_same, ?bdim_1_r, ?bdim_same. apply tab4_ext.
    intros b q h f Hb Hq Hh Hf.
    rewrite ?bdim_same, ?bdim_1_r.
    now same_index.
Qed.
End Update.

(** ** The attention engine: accumulator and skip policy *)

Section Engine.
Context {F : Type} {D : DType F}.

Variable _chunk_bias_fn : nat -> nat -> T4 F.
Variable causal : bool.
Variables batch query_chunk_size num_heads dim_per_head : nat.
Variables key value : list (T4 F).
Variable query_chunk : T4 F.
Variable query_chunk_idx : nat.

(** C2.  On a key block that is not skipped the carry is replaced by
    the online-softmax update: the new running max is the larger of
    the previous one and the row maximum of the scores, the weights
    are the exponentials of the scores minus the new max, the
    correction is the exponential of the previous max minus the new
    one, numerator and denominator are rescaled by the correction and
    receive the weights contracted with the values, respectively the
    row sums of the weights; the block output is the final numerator
    divided by the final denominator. *)
Theorem online_softmax_update
    (carry : Carry) (key_chunk value_chunk : T4 F) (key_chunk_idx : nat)
    (nb nq nh nk nf nd : nat) :
  let attn_weights :=
    scores _chunk_bias_fn query_chunk query_chunk_idx
           key_chunk key_chunk_idx in
  0 < nk ->
  has_shape nb nq nh nk attn_weights = true ->
  has_shape nb nk nh nf value_chunk = true ->
  has_shape nb nq nh nf (numerator carry) = true ->
  has_shape nb nq nh nd (denominator carry) = true ->
  has_shape nb nq nh 1 (max_so_far carry) = true ->
  skip_block causal query_chunk_idx key_chunk_idx = false ->
  let sc := get4 zero attn_weights in
  let prev := get4 zero (max_so_far carry) in
  skip_upper_half _chunk_bias_fn causal query_chunk query_chunk_idx
                  carry (key_chunk, value_chunk, key_chunk_idx) =
  (mkCarry
     (tab4 nb nq nh nf
        (numerator_update sc prev (get4 zero (numerator carry))
                          (get4 zero value_chunk) nk))
     (tab4 nb nq nh nd
        (denominator_update sc prev (get4 zero (denominator carry)) nk))
     (tab4 nb nq nh 1 (fun b q h _ => new_max sc prev nk b q h)),
   tt) /\
  _query_chunk_attention _chunk_bias_fn causal batch query_chunk_size
      num_heads dim_per_head key value query_chunk query_chunk_idx =
  (let final :=
     fst (scan (skip_upper_half _chunk_bias_fn causal query_chunk
                                query_chunk_idx)
               (init_carry batch query_chunk_size num_heads dim_per_head)
               (kv_blocks key value)) in
   div4 (numerator final) (denominator final)).
Proof.
  intros attn_weights Hk Hs Hv Hn Hd Hm Hskip sc prev. split.
  - unfold skip_upper_half. rewrite Hskip. unfold summarize_chunk.
    cbv zeta. fold attn_weights.
    pose proof (shape_as_tab4 _ _ _ _ _ zero Hs) as Es.
    pose proof (shape_as_tab4 _ _ _ _ _ zero Hv) as Ev.
    pose proof (shape_as_tab4 _ _ _ _ _ zero Hn) as En.
    pose proof (shape_as_tab4 _ _ _ _ _ zero Hd) as Ed.
    pose proof (shape_as_tab4 _ _ _ _ _ zero Hm) as Em.
    fold sc in Es. fold prev in Em.
    clearbody sc prev.
    set (gn := get4 zero (numerator carry)) in *.
    set (gd := get4 zero (denominator carry)) in *.
    set (gv := get4 zero value_chunk) in *.
    clearbody gn gd gv.
    rewrite Es, Ev, En, Ed, Em.
    destruct (summarize_on_entries nb nq nh nf nd sc prev gn gd gv Hk)
      as (E1 & E2 & E3).
    now rewrite E2, E3, E1.
  - unfold _query_chunk_attention.
    now destruct (scan _ _ _).
Qed.

End Engine.

(** ** The causal skip *)

Lemma scan_app_fst {S X Y} (f : S -> X -> S * Y) init l1 l2 :
  fst (scan f init (l1 ++ l2)) = fst (scan f (fst (scan f init l1)) l2).
Proof.
  revert init. induction l1 as [|x l1 IH]; intros init; [reflexivity|].
  cbn [app scan]. destruct (f init x) as [s y]. specialize (IH s).
  destruct (scan f s (l1 ++ l2)) as [s' ys].
  destruct (scan f s l1) as [s1 ys1]. cbn [fst] in *. exact IH.
Qed.

Lemma skipn_combine {A B} k (l : list A) (l' : list B) :
  skipn k (combine l l') = combine (skipn k l) (skipn k l').
Proof.
  revert l l'. induction k as [|k IH]; intros [|x l] [|y l'];
    try reflexivity.
  - simpl. now destruct (skipn k l).
  - simpl. apply IH.
Qed.

Lemma skipn_nth_error {A} (l : list A) n a :
  nth_error l n = Some a -> skipn n l = a :: skipn (S n) l.
Proof.
  revert l. induction n as [|n IH]; intros [|x l] H; try discriminate.
  - now injection H as ->.
  - cbn [skipn]. now apply IH.
Qed.

Section SkipPolicy.
Context {F : Type} {D : DType F}.
Variable _chunk_bias_fn : nat -> nat -> T4 F.
Variable query_chunk : T4 F.
Variable query_chunk_idx : nat.

Lemma scan_skipped (blocks : list (T4 F * T4 F * nat)) carry :
  Forall (fun blk => query_chunk_idx < snd blk) blocks ->
  fst (scan (skip_upper_half _chunk_bias_fn true query_chunk query_chunk_idx)
            carry blocks) = carry.
Proof.
  induction 1 as [|[[kc vc] ki] blocks Hlt _ IH]; [reflexivity|].
  cbn [scan skip_upper_half]. cbn [snd] in Hlt.
  unfold skip_block. apply Nat.ltb_lt in Hlt. rewrite Hlt.
  destruct (scan _ carry blocks) as [s ys]. exact IH.
Qed.

Lemma scan_none_skipped causal (blocks : list (T4 F * T4 F * nat)) carry :
  Forall (fun blk => snd blk <= query_chunk_idx) blocks ->
  scan (skip_upper_half _chunk_bias_fn causal query_chunk query_chunk_idx)
       carry blocks =
  scan (summarize_chunk _chunk_bias_fn query_chunk query_chunk_idx)
       carry blocks.
Proof.
  intros H. revert carry.
  induction H as [|[[kc vc] ki] blocks Hle _ IH]; intros carry;
    [reflexivity|].
  cbn [snd] in Hle. cbn [scan].
  assert (E : skip_upper_half _chunk_bias_fn causal query_chunk
                query_chunk_idx carry (kc, vc, ki) =
              summarize_chunk _chunk_bias_fn query_chunk query_chunk_idx
                carry (kc, vc, ki)).
  { unfold skip_upper_half, skip_block. destruct causal; [|reflexivity].
    apply Nat.ltb_ge in Hle. now rewrite Hle. }
  rewrite E. destruct (summarize_chunk _ _ _ carry _) as [s y].
  now rewrite IH.
Qed.

Lemma diagonal_block (key value : list (T4 F)) :
  query_chunk_idx < length key -> length key = length value ->
  nth_error (kv_blocks key value) query_chunk_idx =
  Some (nth query_chunk_idx key [], nth query_chunk_idx value [],
        query_chunk_idx).
Proof.
  intros Hi Hlen. unfold kv_blocks.
  rewrite (nth_error_nth' _ (@nil (list (list (list F))),
                             @nil (list (list (list F))), 0)).
  - rewrite combine_nth.
    + rewrite combine_nth by assumption. now rewrite seq_nth.
    + now rewrite length_combine, length_seq, <- Hlen, Nat.min_id.
  - rewrite !length_combine, length_seq, <- Hlen, !Nat.min_id.
    assumption.
Qed.

(** C4.  Under causal attention a pair is skipped exactly when the key
    block index exceeds the query block index (never otherwise); a
    skipped pair hands the carry on unchanged, any other pair is
    summarized; the diagonal pair is never skipped.  A query block
    whose index is below the number of key blocks ends its reduction on
    its diagonal pair: the final carry is the update of that pair
    applied to the carry the earlier key blocks have left.  A query
    block whose index is at or beyond the number of key blocks has no
    diagonal pair and skips nothing. *)
Theorem causal_skip_policy (causal : bool) (key value : list (T4 F))
    (key_chunk_idx : nat) :
  let step :=
    skip_upper_half _chunk_bias_fn causal query_chunk query_chunk_idx in
  let update :=
    summarize_chunk _chunk_bias_fn query_chunk query_chunk_idx in
  (skip_block true query_chunk_idx key_chunk_idx = true <->
   query_chunk_idx < key_chunk_idx) /\
  (forall j, skip_block false query_chunk_idx j = false) /\
  (forall carry key_chunk value_chunk,
      skip_block causal query_chunk_idx key_chunk_idx = true ->
      step carry (key_chunk, value_chunk, key_chunk_idx) = (carry, tt)) /\
  (forall carry key_chunk value_chunk,
      skip_block causal query_chunk_idx key_chunk_idx = false ->
      step carry (key_chunk, value_chunk, key_chunk_idx) =
      update carry (key_chunk, value_chunk, key_chunk_idx)) /\
  skip_block causal query_chunk_idx query_chunk_idx = false /\
  (causal = true ->
   query_chunk_idx < length key -> length key = length value ->
   forall carry,
     fst (scan step carry (kv_blocks key value)) =
     fst (update
            (fst (scan step carry
                       (firstn query_chunk_idx (kv_blocks key value))))
            (nth query_chunk_idx key [], nth query_chunk_idx value [],
             query_chunk_idx))) /\
  (length key <= query_chunk_idx ->
   forall carry,
     scan step carry (kv_blocks key value) =
     scan update carry (kv_blocks key value)).
Proof.
  intros step update. unfold step, update.
  split; [|split; [|split; [|split; [|split; [|split]]]]].
  - unfold skip_block. apply Nat.ltb_lt.
  - reflexivity.
  - intros carry kc vc H. unfold skip_upper_half. now rewrite H.
  - intros carry kc vc H. unfold skip_upper_half. now rewrite H.
  - unfold skip_block. destruct causal; [apply Nat.ltb_irrefl|reflexivity].
  - intros -> Hi Hlen carry.
    pose proof (diagonal_block key value Hi Hlen) as Hd.
    rewrite <- (firstn_skipn query_chunk_idx (kv_blocks key value)) at 1.
    rewrite scan_app_fst, (skipn_nth_error _ _ Hd).
    set (c1 := fst (scan _ carry (firstn _ _))).
    cbn [scan]. unfold skip_upper_half at 1. unfold skip_block.
    rewrite Nat.ltb_irrefl.
    destruct (summarize_chunk _ _ _ c1 _) as [c2 y] eqn:E2.
    pose proof (@scan_skipped (skipn (S query_chunk_idx)
                                 (kv_blocks key value)) c2) as Hs.
    destruct (scan _ c2 _) as [c3 ys]. cbn [fst] in *. apply Hs.
    apply Forall_forall. intros [[kc vc] ki] Hin. cbn [snd].
    unfold kv_blocks in Hin. rewrite skipn_combine, skipn_seq in Hin.
    apply in_combine_r in Hin. apply in_seq in Hin. lia.
  - intros Hle carry. apply scan_none_skipped.
    apply Forall_forall. intros [[kc vc] ki] Hin. cbn [snd].
    unfold kv_blocks in Hin.
    apply in_combine_r in Hin. apply in_seq in Hin. lia.
Qed.
End SkipPolicy.

Lemma rearrange_split_error {X} c (t : list (list (list X))) e :
  rearrange_split c t = inl e ->
  (e = ZeroDivisionError /\ c = 0) \/ e = EinopsError.
Proof.
  unfold rearrange_split. destruct (Nat.eqb_spec c 0) as [->|Hc].
  - intros [= <-]. now left.
  - destruct (_ =? 0); [discriminate|]. intros [= <-]. now right.
Qed.

(** C8.  With no bias supplied the entry point never completes: it
    stops at the cut of an axis when a chunk size is 0 (a division by
    zero) or does not divide the length of its axis (an einops error),
    and when the chunk sizes are accepted it stops at the inspection of
    the bias shape. *)
Theorem blockwise_attn_without_bias {F : Type} {D : DType F}
    (query key value : T4 F) (deterministic : bool) (dropout_rng : T4 bool)
    (attn_pdrop : F) (causal : bool) (query_chunk_size key_chunk_size : nat) :
  (blockwise_attn query key value None deterministic dropout_rng attn_pdrop
                  causal query_chunk_size key_chunk_size
   = inl ZeroDivisionError /\
   (query_chunk_size = 0 \/ key_chunk_size = 0)) \/
  blockwise_attn query key value None deterministic dropout_rng attn_pdrop
                 causal query_chunk_size key_chunk_size = inl EinopsError \/
  blockwise_attn query key value None deterministic dropout_rng attn_pdrop
                 causal query_chunk_size key_chunk_size = inl AttributeError.
Proof.
  unfold blockwise_attn.
  destruct (rearrange_split query_chunk_size _) as [e|q] eqn:Eq; simpl.
  { destruct (rearrange_split_error _ _ Eq) as [[-> ->]| ->]; auto. }
  destruct (rearrange_split key_chunk_size key) as [e|k] eqn:Ek; simpl.
  { destruct (rearrange_split_error _ _ Ek) as [[-> ->]| ->]; auto. }
  destruct (rearrange_split key_chunk_size value) as [e|v] eqn:Ev; simpl.
  { destruct (rearrange_split_error _ _ Ev) as [[-> ->]| ->]; auto. }
  now right; right.
Qed.

(** ** The chunked transform *)

Lemma tab_app {A} a b (g : nat -> A) :
  tab (a + b) g = tab a g ++ tab b (fun i => g (a + i)).
Proof.
  revert g. induction a as [|a IH]; intros g; [reflexivity|].
  simpl Nat.add. rewrite !tab_S, IH. reflexivity.
Qed.

Lemma concat_tab_tab {A} c n (g : nat -> A) :
  concat (tab c (fun ci => tab n (fun ni => g (ci * n + ni)))) = tab (c * n) g.
Proof.
  revert g. induction c as [|c IH]; intros g; [reflexivity|].
  rewrite tab_S. simpl concat. simpl Nat.mul. rewrite tab_app. f_equal.
  rewrite <- IH. f_equal. apply tab_ext. intros ci _.
  apply tab_ext. intros ni _. f_equal. lia.
Qed.

Lemma nth_map_in {A B} (f : A -> B) l i d d' :
  i < length l -> nth i (map f l) d = f (nth i l d').
Proof.
  intros Hi. rewrite (nth_indep _ d (f d')) by now rewrite length_map.
  apply map_nth.
Qed.

Ltac to_tab :=
  repeat match goal with
         | |- context [map ?g (seq 0 ?n)] =>
             change (map g (seq 0 n)) with (tab n g)
         end.

Lemma map_as_tab {A B} (f : A -> B) l d :
  map f l = tab (length l) (fun i => f (nth i l d)).
Proof. rewrite (list_as_tab l d) at 1. apply map_tab. Qed.

Section Transform.
Context {X Y : Type}.
Variable forward_ffn : list (list (list X)) -> bool -> list (list (list Y)).

Lemma scan_ffn deterministic xs :
  scan (ffn forward_ffn deterministic) tt xs =
  (tt, map (fun x => forward_ffn x deterministic) xs).
Proof.
  induction xs as [|x xs IH]; [reflexivity|].
  simpl. now rewrite IH.
Qed.

(** C9.  For a transform that acts position by position, on a
    rectangular input whose sequence length is a multiple of the block
    size, the chunked runner returns what the transform returns on the
    whole sequence; and the output computed for a block is the same
    whatever the order in which the blocks are visited. *)
Theorem blockwise_ffn_chunk_invariance
    (inputs : list (list (list X))) (chunk_size : nat)
    (deterministic : bool) :
  per_position forward_ffn deterministic ->
  0 < chunk_size ->
  length (hd [] inputs) mod chunk_size = 0 ->
  forallb (fun xb => length xb =? length (hd [] inputs)) inputs = true ->
  blockwise_ffn forward_ffn inputs chunk_size deterministic =
  inr (forward_ffn inputs deterministic) /\
  (forall (blocks : list (list (list (list X)))) (order : list nat),
      snd (scan (ffn forward_ffn deterministic) tt
                (map (fun i => nth i blocks []) order)) =
      map (fun i =>
             nth i (snd (scan (ffn forward_ffn deterministic) tt blocks))
                 (forward_ffn [] deterministic))
          order).
Proof.
  intros [f Hf] Hc Hmod Hrect. split.
  - unfold blockwise_ffn, rearrange_bcn.
    set (len := length (hd [] inputs)) in *.
    assert (Hnz : (chunk_size =? 0) = false) by (apply Nat.eqb_neq; lia).
    assert (Hok : (len mod chunk_size =? 0) = true) by now apply Nat.eqb_eq.
    rewrite Hnz, Hok. cbn [bind]. rewrite scan_ffn.
    set (n := len / chunk_size).
    assert (Hlen : len = chunk_size * n).
    { unfold n. apply Nat.Div0.div_exact. assumption. }
    f_equal. rewrite (Hf inputs).
    unfold scan_outputs, scan_inputs. to_tab.
    rewrite map_tab, (map_as_tab (map f) inputs []).
    apply tab_ext. intros b Hb.
    assert (Hxb : length (nth b inputs []) = chunk_size * n).
    { rewrite <- Hlen.
      pose proof (forallb_nth _ inputs [] Hrect Hb) as H.
      now apply Nat.eqb_eq in H. }
    rewrite (map_as_tab f (nth b inputs []) []), Hxb.
    rewrite <- concat_tab_tab. f_equal.
    apply tab_ext. intros ci Hci. rewrite !map_tab.
    apply tab_ext. intros ni Hni. rewrite Hf.
    rewrite (nth_map_in (map f) _ _ []) by now rewrite !length_map.
    rewrite (nth_map_in (map (fun row => nth ni row [])) _ _ [])
      by now rewrite length_map.
    rewrite (@nth_map_in _ _ _ inputs b _ []) by assumption.
    to_tab. rewrite !map_tab, nth_tab by assumption.
    to_tab. now rewrite nth_tab.
  - intros blocks order. rewrite !scan_ffn. cbn [snd].
    rewrite map_map. apply map_ext. intros i.
    now rewrite (map_nth (fun x => forward_ffn x deterministic)).
Qed.
End Transform.

(** ** The chunked loss aggregator *)

Section LossFold.
Context {F : Type} {D : DType F}.

Lemma scan_loss_and_accuracy blocks loss accuracy num :
  fst (scan _loss_and_accuracy (loss, accuracy, num) blocks) =
  (fold_left add (map block_loss_contribution blocks) loss,
   fold_left add (map block_accuracy_contribution blocks) accuracy,
   num + length blocks).
Proof.
  revert loss accuracy num.
  induction blocks as [|[[lg tk] vl] blocks IH]; intros loss accuracy num.
  - simpl. now rewrite Nat.add_0_r.
  - assert (Hstep : _loss_and_accuracy (loss, accuracy, num) (lg, tk, vl) =
                    ((add loss (block_loss_contribution (lg, tk, vl)),
                      add accuracy
                          (block_accuracy_contribution (lg, tk, vl)),
                      num + 1), tt)) by reflexivity.
    cbn [scan]. rewrite Hstep.
    specialize (IH (add loss (block_loss_contribution (lg, tk, vl)))
                   (add accuracy (block_accuracy_contribution (lg, tk, vl)))
                   (num + 1)).
    destruct (scan _ _ blocks) as [s ys]. cbn [fst] in *. rewrite IH.
    cbn [map fold_left length]. f_equal. lia.
Qed.

Lemma rearrange_nc_ok {A} c (l : list A) :
  0 < c -> length l mod c = 0 -> rearrange_nc c l = inr (chunks c l).
Proof.
  intros Hc Hm. unfold rearrange_nc.
  assert (Hnz : (c =? 0) = false) by (apply Nat.eqb_neq; lia).
  apply Nat.eqb_eq in Hm. now rewrite Hnz, Hm.
Qed.

Lemma cross_entropy_closed_form logits tokens chunk_size valid :
  let valid' :=
    match valid with
    | None => map (map (fun _ => one)) tokens
    | Some v => v
    end in
  0 < chunk_size ->
  length (concat logits) mod chunk_size = 0 ->
  length (concat tokens) mod chunk_size = 0 ->
  length (concat valid') mod chunk_size = 0 ->
  length (concat logits) = length (concat tokens) ->
  length (concat valid') = length (concat tokens) ->
  let blocks :=
    combine (combine (chunks chunk_size (concat logits))
                     (chunks chunk_size (concat tokens)))
            (chunks chunk_size (concat valid')) in
  blockwise_cross_entropy logits tokens chunk_size valid =
  inr (div (neg (sum (map block_loss_contribution blocks)))
           (of_nat (length blocks)),
       div (sum (map block_accuracy_contribution blocks))
           (of_nat (length blocks))).
Proof.
  intros valid' Hc Hl Ht Hv Hlt Hvt blocks. unfold blockwise_cross_entropy.
  fold valid'.
  rewrite !rearrange_nc_ok by assumption. cbn [bind].
  assert (Hn : forall A (l : list A),
            length (chunks chunk_size l) = length l / chunk_size).
  { intros A l. unfold chunks. now rewrite length_map, length_seq. }
  rewrite !Hn, Hlt, Hvt, !Nat.eqb_refl. cbn [andb]. fold blocks.
  pose proof (scan_loss_and_accuracy blocks zero zero 0) as E.
  destruct (scan _ _ blocks) as [[[loss accuracy] num] ys].
  cbn [fst] in E. inversion E. reflexivity.
Qed.

End LossFold.

(** ** Facts of the exact arithmetic *)

Module IdealFacts.
Import Ideal.
Local Open Scope R_scope.

Lemma Rsign_pos r : 0 < r -> Rsign r = Gt.
Proof.
  intros H. unfold Rsign. destruct (total_order_T r 0) as [[?|?]|?]; try reflexivity; lra.
Qed.

Lemma Rsign_neg r : r < 0 -> Rsign r = Lt.
Proof.
  intros H. unfold Rsign. destruct (total_order_T r 0) as [[?|?]|?]; try reflexivity; lra.
Qed.

Lemma Rsign_zero : Rsign 0 = Eq.
Proof.
  unfold Rsign. destruct (total_order_T 0 0) as [[?|?]|?]; try reflexivity; lra.
Qed.

Lemma xdiv_pos a b : 0 < b -> xdiv (Fin a) (Fin b) = Fin (a / b).
Proof. intros H. unfold xdiv. now rewrite Rsign_pos. Qed.

Lemma xmul_ninf_pos b : 0 < b -> xmul NInf (Fin b) = NInf.
Proof. intros H. unfold xmul. now rewrite Rsign_pos. Qed.

Lemma xltb_lt a b : a < b -> xltb (Fin a) (Fin b) = true.
Proof. intros H. unfold xltb. destruct (Rlt_dec a b); [reflexivity|lra]. Qed.

Lemma xltb_ge a b : b <= a -> xltb (Fin a) (Fin b) = false.
Proof. intros H. unfold xltb. destruct (Rlt_dec a b); [lra|reflexivity]. Qed.

Lemma xsqrt_1 : xsqrt (Fin (INR 1)) = Fin 1.
Proof.
  unfold xsqrt. change (INR 1) with 1. rewrite Rsign_pos by lra.
  now rewrite sqrt_1.
Qed.

Lemma float32_min_neg : float32_min < 0.
Proof.
  unfold float32_min.
  assert (0 < 2 ^ 127) by (apply pow_lt; lra).
  assert (/ 2 ^ 23 < 1).
  { rewrite <- Rinv_1. apply Rinv_lt_contravar.
    - rewrite Rmult_1_l. apply pow_lt. lra.
    - apply Rlt_pow_R1; [lra|lia]. }
  nra.
Qed.

Lemma eps_pos : 0 < / 10 ^ 10.
Proof. apply Rinv_0_lt_compat, pow_lt. lra. Qed.
End IdealFacts.

(** ** The accuracy lies between 0 and 1 *)

Lemma count_correct_le {F} {D : DType F} (valid : list F) (cs : list bool) :
  count_true (zip_with (fun v c => if ltb zero v then c else false) valid cs)
  <= length (filter (ltb zero) valid).
Proof.
  unfold count_true. revert cs.
  induction valid as [|v valid IH]; intros [|c cs]; simpl; try lia.
  specialize (IH cs).
  destruct (ltb zero v); [destruct c|]; simpl; lia.
Qed.

Lemma in_chunks {A} c (l blk : list A) x :
  In blk (chunks c l) -> In x blk -> In x l.
Proof.
  unfold chunks. intros Hb Hx. apply in_map_iff in Hb as [i [<- _]].
  rewrite <- (firstn_skipn (i * c) l). apply in_or_app. right.
  rewrite <- (firstn_skipn c (skipn (i * c) l)). apply in_or_app. now left.
Qed.

Lemma chunks_length {A} c (l : list A) : length (chunks c l) = length l / c.
Proof. unfold chunks. now rewrite length_map, length_seq. Qed.

Section Accuracy.
Import Ideal IdealFacts.
Local Open Scope R_scope.

Lemma sum_indicators (l : list xreal) :
  Forall indicator l ->
  forall a, fold_left xadd l (Fin a) =
            Fin (a + INR (length (filter (xltb (Fin 0)) l))).
Proof.
  induction 1 as [|v l [-> | ->] _ IH]; intros a.
  - simpl. now rewrite Rplus_0_r.
  - cbn [fold_left filter]. rewrite xltb_ge by lra.
    cbn [xadd]. rewrite IH. f_equal. lra.
  - cbn [fold_left filter]. rewrite xltb_lt by lra.
    cbn [xadd length]. rewrite IH, S_INR. f_equal. lra.
Qed.

Lemma block_accuracy_bounds lg tk (vl : list xreal) :
  Forall indicator vl ->
  exists r, block_accuracy_contribution (lg, tk, vl) = Fin r /\ 0 <= r <= 1.
Proof.
  intros Hv. unfold block_accuracy_contribution, block_valid_count, sum.
  cbn [add maximum div zero ideal lit_1e_10 of_nat].
  rewrite (sum_indicators Hv). cbn [xmax].
  set (cnt := count_true _).
  set (k := length (filter (xltb (Fin 0)) vl)).
  assert (Hle : (cnt <= k)%nat) by apply (count_correct_le (D := ideal)).
  apply le_INR in Hle.
  pose proof (pos_INR cnt) as Hc0.
  set (m := Rmax (0 + INR k) (/ 10 ^ 10)).
  assert (Hm : 0 < m).
  { pose proof (Rmax_r (0 + INR k) (/ 10 ^ 10)). pose proof eps_pos.
    fold m in H. lra. }
  assert (Hkm : INR k <= m).
  { pose proof (Rmax_l (0 + INR k) (/ 10 ^ 10)). fold m in H. lra. }
  rewrite xdiv_pos by assumption.
  exists (INR cnt / m). split; [reflexivity|]. split.
  - apply Rmult_le_pos; [assumption|]. left. now apply Rinv_0_lt_compat.
  - apply (Rmult_le_reg_r m); [assumption|].
    unfold Rdiv. rewrite Rmult_assoc, Rinv_l by lra. lra.
Qed.

Lemma fold_accuracy_bounds (cs : list xreal) :
  Forall (fun c => exists r, c = Fin r /\ 0 <= r <= 1) cs ->
  forall a, exists s,
    fold_left xadd cs (Fin a) = Fin s /\ a <= s <= a + INR (length cs).
Proof.
  induction 1 as [|c cs (r & -> & Hr) _ IH]; intros a.
  - exists a. simpl. split; [reflexivity|lra].
  - cbn [fold_left xadd]. destruct (IH (a + r)) as (s & Es & Hs).
    exists s. split; [assumption|]. cbn [length]. rewrite S_INR. lra.
Qed.

(** C10.  With at least one block and every validity entry 0 or 1 (or
    no mask at all), the accuracy returned is a finite number between
    0 and 1. *)
Theorem accuracy_in_unit_interval
    (logits : list (list (list xreal))) (tokens : list (list nat))
    (chunk_size : nat) (valid : option (list (list xreal))) :
  let valid' :=
    match valid with
    | None => map (map (fun _ => Fin 1)) tokens
    | Some v => v
    end in
  (0 < chunk_size)%nat ->
  (0 < length (concat tokens))%nat ->
  (length (concat tokens) mod chunk_size = 0)%nat ->
  length (concat logits) = length (concat tokens) ->
  match valid with
  | None => True
  | Some v => length (concat v) = length (concat tokens) /\
              Forall (Forall indicator) v
  end ->
  exists loss accuracy,
    blockwise_cross_entropy logits tokens chunk_size valid =
    inr (loss, Fin accuracy) /\
    0 <= accuracy <= 1.
Proof.
  intros valid' Hc Hpos Hmod Hlg Hvalid.
  assert (Hvl : length (concat valid') = length (concat tokens)).
  { unfold valid'. destruct valid as [v|]; [apply Hvalid|].
    clear. induction tokens as [|row rows IH]; [reflexivity|].
    simpl. now rewrite !length_app, length_map, IH. }
  assert (Hind : Forall (Forall indicator) valid').
  { unfold valid'. destruct valid as [v|]; [apply Hvalid|].
    apply Forall_forall. intros row Hrow.
    apply in_map_iff in Hrow as (r & <- & _).
    apply Forall_forall. intros v Hv.
    apply in_map_iff in Hv as (t & <- & _). now right. }
  clear Hvalid.
  pose proof (@cross_entropy_closed_form xreal ideal logits tokens
                chunk_size valid) as E.
  cbv zeta in E. change (@one xreal ideal) with (Fin 1) in E.
  fold valid' in E.
  rewrite Hlg, Hvl in E. specialize (E Hc Hmod Hmod Hmod eq_refl eq_refl).
  set (blocks := combine _ _) in E.
  assert (Hn : length blocks = (length (concat tokens) / chunk_size)%nat).
  { unfold blocks. rewrite !length_combine, !chunks_length, Hlg, Hvl.
    now rewrite !Nat.min_id. }
  assert (Hn1 : (1 <= length blocks)%nat).
  { rewrite Hn. apply Nat.Div0.div_exact in Hmod.
    destruct (length (concat tokens) / chunk_size)%nat; nia. }
  assert (Hb : Forall (fun c => exists r, c = Fin r /\ 0 <= r <= 1)
                      (map block_accuracy_contribution blocks)).
  { apply Forall_forall. intros c Hin.
    apply in_map_iff in Hin as ([[lg tk] vl] & <- & Hin).
    apply block_accuracy_bounds. unfold blocks in Hin.
    apply in_combine_r in Hin.
    apply Forall_forall. intros v Hv.
    pose proof (in_chunks _ _ _ _ Hin Hv) as Hc'.
    apply in_concat in Hc' as (row & Hrow & Hv').
    rewrite Forall_forall in Hind. specialize (Hind row Hrow).
    rewrite Forall_forall in Hind. now apply Hind. }
  destruct (fold_accuracy_bounds Hb 0) as (s & Es & Hs).
  rewrite length_map in Hs.
  assert (Hlen : 0 < INR (length blocks)).
  { apply lt_0_INR. lia. }
  eexists. exists (s / INR (length blocks)). split.
  - rewrite E. unfold sum at 2. cbn [add zero div of_nat ideal].
    rewrite Es, xdiv_pos by assumption. reflexivity.
  - split.
    + apply Rmult_le_pos; [lra|]. left. now apply Rinv_0_lt_compat.
    + apply (Rmult_le_reg_r (INR (length blocks))); [assumption|].
      unfold Rdiv. rewrite Rmult_assoc, Rinv_l by lra. lra.
Qed.
End Accuracy.

(** ** The engine on concrete inputs *)

Section Concrete.
Import Ideal IdealFacts.
Local Open Scope R_scope.

Lemma xmul_ninf_1 : xmul NInf (Fin 1) = NInf.
Proof. apply xmul_ninf_pos. lra. Qed.

Lemma xdiv_fin_1 a : xdiv (Fin a) (Fin 1) = Fin a.
Proof. rewrite xdiv_pos by lra. f_equal. field. Qed.

(** Unfold the arrays and leave the scalar operations standing. *)
Ltac arrays :=
  cbv - [xadd xsub xmul xdiv xmax xneg xexp xlog xsqrt xltb
         Rplus Rminus Rmult Rdiv Rinv Ropp Rmax Rtrigo_def.exp R_sqrt.sqrt
         Rlt_dec total_order_T float32_min pow IZR INR R0 R1].

Ltac scalars :=
  rewrite ?xsqrt_1, ?xdiv_fin_1, ?xmul_ninf_1;
  cbn [xadd xmul xsub xneg xmax xexp];
  repeat match goal with
         | |- context [Rmax ?a ?b] =>
             first [ rewrite (Rmax_left a b) by lra
                   | rewrite (Rmax_right a b) by lra ]
         end;
  repeat match goal with
         | |- context [Rtrigo_def.exp ?a] =>
             first [ progress (replace a with 0 by lra)
                   | progress (replace a with (-1) by lra) ]
         end;
  rewrite ?exp_0.

Lemma exp_m1_bounds : 0 < Rtrigo_def.exp (-1) < 1.
Proof.
  split; [apply exp_pos|].
  rewrite <- exp_0. apply exp_increasing. lra.
Qed.

(** C1.  Query chunks of size 2 over 4 positions: the entry returned
    at position 1 is the attention of query position 2, not that of
    position 1, which the direct computation and the single-chunk run
    both return. *)
Theorem chunk_size_invariance_fails :
  exists out out1,
    blockwise_attn Example1.query Example1.key Example1.value
      (Some Example1.bias) true [] (Fin 0) false 2 2 = inr out /\
    blockwise_attn Example1.query Example1.key Example1.value
      (Some Example1.bias) true [] (Fin 0) false 4 2 = inr out1 /\
    get4 NaN out 0 1 0 0 = Fin (1 / (Rtrigo_def.exp (-1) + 1)) /\
    get4 NaN out1 0 1 0 0 = Fin (1 / 2) /\
    get4 NaN (reference_attn Example1.query Example1.key Example1.value
                             Example1.bias false) 0 1 0 0 = Fin (1 / 2) /\
    get4 NaN out 0 1 0 0 <>
    get4 NaN (reference_attn Example1.query Example1.key Example1.value
                             Example1.bias false) 0 1 0 0.
Proof.
  pose proof exp_m1_bounds as He.
  assert (E : get4 NaN (reference_attn Example1.query Example1.key
                Example1.value Example1.bias false) 0 1 0 0 = Fin (1 / 2)).
  { arrays. scalars. rewrite xdiv_pos by lra. f_equal. field. }
  eexists. eexists. split; [arrays; reflexivity|].
  split; [arrays; reflexivity|].
  assert (E' : forall x y, x = y -> Fin x = Fin y) by congruence.
  split; [|split; [|split; [exact E|]]].
  - cbv [get4 nth]. scalars. rewrite xdiv_pos by lra. apply E'. field. lra.
  - cbv [get4 nth]. scalars. rewrite xdiv_pos by lra. apply E'. field.
  - rewrite E.
    match goal with
    | |- ?a <> _ =>
        assert (Ea : a = Fin (1 / (Rtrigo_def.exp (-1) + 1)))
          by (cbv [get4 nth]; scalars; rewrite xdiv_pos by lra;
              apply E'; field; lra);
        rewrite Ea
    end.
    intros H. injection H as H.
    assert (H1 : 1 / (Rtrigo_def.exp (-1) + 1) *
                 (Rtrigo_def.exp (-1) + 1) = 1) by (field; lra).
    rewrite H in H1. lra.
Qed.

(** C3.  Causal attention with chunks of size 2 over 4 positions: two
    inputs that differ only in the value at position 2 give different
    outputs at position 1. *)
Theorem causal_locality_fails :
  exists out out',
    blockwise_attn Example2.query Example2.key Example2.value
      (Some Example2.bias) true [] (Fin 0) true 2 2 = inr out /\
    blockwise_attn Example2.query Example2.key Example2.value'
      (Some Example2.bias) true [] (Fin 0) true 2 2 = inr out' /\
    (forall j, j <> 2%nat ->
               nth j (hd [] Example2.value) [] =
               nth j (hd [] Example2.value') []) /\
    get4 NaN out 0 1 0 0 = Fin 0 /\
    get4 NaN out' 0 1 0 0 = Fin (1 / 2) /\
    get4 NaN out 0 1 0 0 <> get4 NaN out' 0 1 0 0.
Proof.
  pose proof float32_min_neg as Hm.
  eexists. eexists. split; [arrays; reflexivity|].
  split; [arrays; reflexivity|].
  assert (E' : forall x y, x = y -> Fin x = Fin y) by congruence.
  split; [|split; [|split]].
  - intros [|[|[|[|j]]]] Hj; try reflexivity. congruence.
  - cbv [get4 nth]. scalars. rewrite xdiv_pos by lra. apply E'. field.
  - cbv [get4 nth]. scalars. rewrite xdiv_pos by lra. apply E'. field.
  - match goal with
    | |- ?a <> ?b =>
        assert (Ea : a = Fin 0)
          by (cbv [get4 nth]; scalars; rewrite xdiv_pos by lra;
              apply E'; field);
        assert (Eb : b = Fin (1 / 2))
          by (cbv [get4 nth]; scalars; rewrite xdiv_pos by lra;
              apply E'; field);
        rewrite Ea, Eb
    end.
    intros H. injection H as H. lra.
Qed.

(** C4, as worded.  A causal run that the entry point accepts, with
    four query blocks of size 1 and a single key block of size 4: the
    query (scaled or not) is cut in four blocks, so query block 1
    exists, but there is no key block 1 and the pairs its reduction
    visits do not include a diagonal pair. *)
Theorem diagonal_pair_missing :
  exists out queries keys values,
    blockwise_attn Example2.query Example2.key Example2.value
      (Some Example2.bias) true [] (Fin 0) true 1 4 = inr out /\
    rearrange_split 1 Example2.query = inr queries /\
    rearrange_split 4 Example2.key = inr keys /\
    rearrange_split 4 Example2.value = inr values /\
    (1 < length queries)%nat /\
    nth_error (kv_blocks keys values) 1 = None.
Proof.
  do 4 eexists.
  split; [arrays; reflexivity|].
  split; [reflexivity|]. split; [reflexivity|]. split; [reflexivity|].
  split; [cbn; lia|reflexivity].
Qed.
End Concrete.

(** ** The initial carry *)

Lemma forallb_repeat {A} (P : A -> bool) x n :
  P x = true -> forallb P (repeat x n) = true.
Proof.
  intros H. induction n as [|n IH]; [reflexivity|].
  simpl. now rewrite H, IH.
Qed.

Lemma has_shape_full4 {A} n0 n1 n2 n3 (x : A) :
  has_shape n0 n1 n2 n3 (full4 n0 n1 n2 n3 x) = true.
Proof.
  unfold has_shape, full4. rewrite repeat_length, Nat.eqb_refl. simpl.
  apply forallb_repeat. rewrite repeat_length, Nat.eqb_refl. simpl.
  apply forallb_repeat. rewrite repeat_length, Nat.eqb_refl. simpl.
  apply forallb_repeat. now rewrite repeat_length, Nat.eqb_refl.
Qed.

Lemma map4_full4 {A B} (f : A -> B) n0 n1 n2 n3 x :
  map4 f (full4 n0 n1 n2 n3 x) = full4 n0 n1 n2 n3 (f x).
Proof. unfold map4, full4. now rewrite !map_repeat. Qed.

(** C6 as worded fails: with head dimension 2 the initial denominator is
    not of width 1, and the running max does not have its shape. *)
Lemma init_denominator_width :
  has_shape 1 1 1 1 (denominator (init_carry (D := ideal) 1 1 1 2)) = false /\
  shape4 (max_so_far (init_carry (D := ideal) 1 1 1 2)) <>
  shape4 (denominator (init_carry (D := ideal) 1 1 1 2)).
Proof. split; [reflexivity|]. cbv. discriminate. Qed.

(** C6, amended.  Every query block starts its reduction from the same
    fresh carry: numerator and denominator are zero and both of shape
    (batch, query block size, heads, head dimension), the running max is
    minus infinity of shape (batch, query block size, heads, 1); the
    outer loop threads no state from one query block to the next. *)
Theorem init_carry_fresh
    (batch query_chunk_size num_heads dim_per_head : nat)
    (_chunk_bias_fn : nat -> nat -> T4 xreal) (causal : bool)
    (key value : list (T4 xreal)) (blocks : list (T4 xreal * nat)) :
  let c :=
    init_carry (D := ideal) batch query_chunk_size num_heads dim_per_head in
  numerator c = full4 batch query_chunk_size num_heads dim_per_head (Fin 0) /\
  denominator c =
    full4 batch query_chunk_size num_heads dim_per_head (Fin 0) /\
  max_so_far c = full4 batch query_chunk_size num_heads 1 NInf /\
  has_shape batch query_chunk_size num_heads dim_per_head (numerator c)
    = true /\
  has_shape batch query_chunk_size num_heads dim_per_head (denominator c)
    = true /\
  has_shape batch query_chunk_size num_heads 1 (max_so_far c) = true /\
  scan (fun (_ : unit) x =>
          (tt, _query_chunk_attention _chunk_bias_fn causal batch
                 query_chunk_size num_heads dim_per_head key value
                 (fst x) (snd x)))
       tt blocks =
  (tt, map (fun x =>
              let final :=
                fst (scan (skip_upper_half _chunk_bias_fn causal
                                           (fst x) (snd x))
                          c (kv_blocks key value)) in
              div4 (numerator final) (denominator final))
           blocks).
Proof.
  intros c.
  assert (Em : max_so_far c = full4 batch query_chunk_size num_heads 1 NInf).
  { unfold c, init_carry. cbn [max_so_far]. rewrite map4_full4.
    cbn [mul neg_inf one ideal]. now rewrite IdealFacts.xmul_ninf_pos by lra. }
  split; [reflexivity|]. split; [reflexivity|]. split; [exact Em|].
  split; [apply has_shape_full4|]. split; [apply has_shape_full4|].
  split; [rewrite Em; apply has_shape_full4|].
  rewrite scan_stateless. f_equal. apply map_ext. intros x.
  unfold _query_chunk_attention. fold c. now destruct (scan _ c _).
Qed.

(** ** The dropout term of the bias tile *)

Lemma firstn_tab {A} a b (g : nat -> A) : firstn a (tab (a + b) g) = tab a g.
Proof.
  rewrite tab_app, firstn_app, tab_length, Nat.sub_diag.
  rewrite firstn_all2 by now rewrite tab_length.
  simpl. apply app_nil_r.
Qed.

Lemma skipn_tab {A} a b (g : nat -> A) :
  skipn a (tab (a + b) g) = tab b (fun i => g (a + i)).
Proof.
  rewrite tab_app, skipn_app, tab_length, Nat.sub_diag.
  rewrite skipn_all2 by now rewrite tab_length.
  reflexivity.
Qed.

Lemma slice1_tab {A} s n len (g : nat -> A) :
  s + n <= len -> slice1 s n (tab len g) = tab n (fun i => g (s + i)).
Proof.
  intros H. unfold slice1. rewrite tab_length.
  replace (Nat.min s (len - n)) with s by lia.
  replace len with (s + (n + (len - s - n))) by lia.
  now rewrite skipn_tab, firstn_tab.
Qed.

Lemma dims_tab4 {A} n0 n1 n2 n3 (g : nat -> nat -> nat -> nat -> A) :
  0 < n0 -> 0 < n1 -> 0 < n2 ->
  shape4 (tab4 n0 n1 n2 n3 g) = (n0, n1, n2, n3).
Proof.
  intros H0 H1 H2. unfold shape4, dim0, dim1, dim2, dim3, tab4.
  destruct n0 as [|n0]; [lia|]. destruct n1 as [|n1]; [lia|].
  destruct n2 as [|n2]; [lia|].
  rewrite (tab_S n0). cbn [hd]. rewrite (tab_S n1). cbn [hd].
  rewrite (tab_S n2). cbn [hd]. cbn [length]. now rewrite !tab_length.
Qed.

Lemma dynamic_slice4_tab4 {A} n0 n1 n2 n3 (g : nat -> nat -> nat -> nat -> A)
      s2 s3 m2 m3 :
  s2 + m2 <= n2 -> s3 + m3 <= n3 ->
  dynamic_slice4 (tab4 n0 n1 n2 n3 g) (0, 0, s2, s3) (n0, n1, m2, m3) =
  tab4 n0 n1 m2 m3 (fun i j k l => g i j (s2 + k) (s3 + l)).
Proof.
  intros H2 H3. unfold dynamic_slice4, tab4.
  rewrite slice1_tab by lia. rewrite map_tab. apply tab_ext; intros i _.
  rewrite slice1_tab by lia. rewrite map_tab. apply tab_ext; intros j _.
  rewrite slice1_tab by lia. rewrite map_tab. apply tab_ext; intros k _.
  now rewrite slice1_tab.
Qed.

(** C5 as worded fails: with drop probability 1/2 the value added at a
    flagged position is [finfo.min] itself, not [finfo.min] times 1/2. *)
Lemma dropout_term_unscaled :
  get4 NaN
       (_chunk_attention_bias (D := ideal) 1 1 None false
          (Some [[[[true]]]]) (Fin (1 / 2)) false 0 0) 0 0 0 0 <>
  add (get4 NaN
         (_chunk_attention_bias (D := ideal) 1 1 None true
            (Some [[[[true]]]]) (Fin (1 / 2)) false 0 0) 0 0 0 0)
      (mul (Fin (1 / 2)) finfo_min).
Proof.
  pose proof IdealFacts.float32_min_neg as Hm.
  unfold _chunk_attention_bias. cbn [negb andb ltb zero ideal].
  rewrite IdealFacts.xltb_lt by lra.
  cbv - [Rplus Rmult Rdiv Rinv Ropp Ideal.float32_min IZR R0 R1].
  intros H. injection H as H. lra.
Qed.

(** C5, amended.  Outside evaluation mode and with a positive drop
    probability, the tile is the tile without dropout plus, at every
    position, the dropout flag of that position (1 when flagged, 0
    otherwise) times [finfo.min]; the drop probability does not scale
    the added value. *)
Theorem dropout_masking_rule {F : Type} {D : DType F}
    (query_chunk_size key_chunk_size : nat) (bias : option (T4 F))
    (attn_dropout : T4 bool) (attn_pdrop : F) (causal : bool)
    (query_chunk_idx key_chunk_idx : nat) (nb nh q_len kv_len : nat) :
  0 < nb -> 0 < nh -> 0 < query_chunk_size -> 0 < key_chunk_size ->
  has_shape nb nh q_len kv_len attn_dropout = true ->
  query_chunk_idx * query_chunk_size + query_chunk_size <= q_len ->
  key_chunk_idx * key_chunk_size + key_chunk_size <= kv_len ->
  ltb zero attn_pdrop = true ->
  _chunk_attention_bias query_chunk_size key_chunk_size bias false
    (Some attn_dropout) attn_pdrop causal query_chunk_idx key_chunk_idx =
  add4 (_chunk_attention_bias query_chunk_size key_chunk_size bias true
          (Some attn_dropout) attn_pdrop causal query_chunk_idx key_chunk_idx)
       (tab4 nb nh query_chunk_size key_chunk_size
          (fun b h q k =>
             mul (of_bool
                    (get4 false attn_dropout b h
                          (query_chunk_idx * query_chunk_size + q)
                          (key_chunk_idx * key_chunk_size + k)))
                 finfo_min)).
Proof.
  intros Hb Hh Hq Hk Hs Hql Hkl Hp.
  unfold _chunk_attention_bias. cbn [negb andb]. rewrite Hp. f_equal.
  pose proof (shape_as_tab4 _ _ _ _ _ false Hs) as Em.
  set (gm := get4 false attn_dropout) in *. clearbody gm. subst attn_dropout.
  assert (Hql' : 0 < q_len) by lia.
  pose proof (dims_tab4 kv_len gm Hb Hh Hql') as Hd.
  unfold shape4 in Hd. injection Hd as -> -> -> ->.
  rewrite !Nat.min_r by lia.
  rewrite dynamic_slice4_tab4 by assumption.
  now rewrite map4_tab4.
Qed.

(** ** The statements at concrete inputs *)

Lemma online_softmax_update_witness :
  let c := init_carry (D := ideal) 1 1 1 1 in
  let sc := get4 (Fin 0)
              (scores Example3.no_bias Example3.query_chunk 0
                      Example3.key_chunk 0) in
  let prev := get4 (Fin 0) (max_so_far c) in
  skip_upper_half Example3.no_bias false Example3.query_chunk 0 c
    (Example3.key_chunk, Example3.value_chunk, 0) =
  (mkCarry
     (tab4 1 1 1 1
        (numerator_update sc prev (get4 (Fin 0) (numerator c))
                          (get4 (Fin 0) Example3.value_chunk) 1))
     (tab4 1 1 1 1
        (denominator_update sc prev (get4 (Fin 0) (denominator c)) 1))
     (tab4 1 1 1 1 (fun b q h _ => new_max sc prev 1 b q h)),
   tt).
Proof.
  apply (@online_softmax_update xreal ideal Example3.no_bias false 1 1 1 1
           [Example3.key_chunk] [Example3.value_chunk]
           Example3.query_chunk 0 (init_carry 1 1 1 1)
           Example3.key_chunk Example3.value_chunk 0 1 1 1 1 1 1);
    first [lia | reflexivity].
Defined.

Lemma causal_skip_policy_witness :
  skip_upper_half Example3.no_bias true Example3.query_chunk 0
    (init_carry (D := ideal) 1 1 1 1)
    (Example3.key_chunk, Example3.value_chunk, 1) =
  (init_carry 1 1 1 1, tt) /\
  fst (scan (skip_upper_half Example3.no_bias true Example3.query_chunk 0)
            (init_carry (D := ideal) 1 1 1 1)
            (kv_blocks [Example3.key_chunk; Example3.key_chunk]
                       [Example3.value_chunk; Example3.value_chunk])) =
  fst (summarize_chunk Example3.no_bias Example3.query_chunk 0
         (fst (scan (skip_upper_half Example3.no_bias true
                       Example3.query_chunk 0)
                    (init_carry (D := ideal) 1 1 1 1)
                    (firstn 0 (kv_blocks
                                 [Example3.key_chunk; Example3.key_chunk]
                                 [Example3.value_chunk;
                                  Example3.value_chunk]))))
         (nth 0 [Example3.key_chunk; Example3.key_chunk] [],
          nth 0 [Example3.value_chunk; Example3.value_chunk] [], 0)).
Proof.
  split.
  - exact (proj1 (proj2 (proj2
             (@causal_skip_policy xreal ideal Example3.no_bias
                Example3.query_chunk 0 true
                [Example3.key_chunk] [Example3.value_chunk] 1)))
             (init_carry 1 1 1 1) Example3.key_chunk Example3.value_chunk
             eq_refl).
  - refine (proj1 (proj2 (proj2 (proj2 (proj2 (proj2
              (@causal_skip_policy xreal ideal Example3.no_bias
                 Example3.query_chunk 0 true
                 [Example3.key_chunk; Example3.key_chunk]
                 [Example3.value_chunk; Example3.value_chunk] 0))))))
              eq_refl _ eq_refl (init_carry 1 1 1 1)).
    cbn. lia.
Defined.

Lemma dropout_masking_rule_witness :
  _chunk_attention_bias (D := ideal) 1 1 None false (Some Example3.mask)
    (Fin (1 / 2)) false 0 0 =
  add4 (_chunk_attention_bias 1 1 None true (Some Example3.mask)
          (Fin (1 / 2)) false 0 0)
       (tab4 1 1 1 1
          (fun b h q k =>
             mul (of_bool (get4 false Example3.mask b h (0 * 1 + q) (0 * 1 + k)))
                 finfo_min)).
Proof.
  apply (@dropout_masking_rule xreal ideal 1 1 None Example3.mask
           (Fin (1 / 2)) false 0 0 1 1 1 1);
    try lia; try reflexivity.
  apply IdealFacts.xltb_lt. lra.
Defined.


Lemma blockwise_ffn_chunk_invariance_witness :
  blockwise_ffn Example3.successors Example3.inputs 2 true =
  inr [[[2]; [3]; [4]; [5]]].
Proof.
  apply (@blockwise_ffn_chunk_invariance nat nat Example3.successors
           Example3.inputs 2 true);
    try lia; try reflexivity.
  exists (map S). reflexivity.
Defined.

Lemma accuracy_in_unit_interval_witness :
  exists loss accuracy,
    blockwise_cross_entropy (D := ideal) Example3.logits Example3.tokens 1
      (Some Example3.valid) = inr (loss, Fin accuracy) /\
    (0 <= accuracy <= 1)%R.
Proof.
  apply (@accuracy_in_unit_interval Example3.logits Example3.tokens 1
           (Some Example3.valid));
    try (simpl; lia); try reflexivity.
  cbv beta iota. split; [reflexivity|].
  apply Forall_cons; [|apply Forall_nil].
  apply Forall_cons; [|apply Forall_nil].
  right. reflexivity.
Defined.

(** * Further properties of the code *)

(** ** Which error, and when *)

Lemma shape4_map4 {A B} (f : A -> B) (t : T4 A) :
  shape4 (map4 f t) = shape4 t.
Proof.
  unfold shape4, dim0, dim1, dim2, dim3, map4.
  rewrite length_map.
  destruct t as [|a t]; [reflexivity|]. cbn [map hd]. rewrite length_map.
  destruct a as [|b a]; [reflexivity|]. cbn [map hd]. rewrite length_map.
  destruct b as [|c b]; [reflexivity|]. cbn [map hd]. now rewrite length_map.
Qed.

Lemma rearrange_split_cases {X} c (t : list (list (list X))) :
  (c = 0 -> rearrange_split c t = inl ZeroDivisionError) /\
  (0 < c -> length (hd [] t) mod c <> 0 ->
   rearrange_split c t = inl EinopsError) /\
  (0 < c -> length (hd [] t) mod c = 0 ->
   exists blocks, rearrange_split c t = inr blocks /\
                  length blocks = length (hd [] t) / c).
Proof.
  unfold rearrange_split. repeat split.
  - now intros ->.
  - intros Hc Hm. destruct (Nat.eqb_spec c 0); [lia|].
    now destruct (Nat.eqb_spec (length (hd [] t) mod c) 0).
  - intros Hc Hm. destruct (Nat.eqb_spec c 0); [lia|].
    rewrite Hm. cbn [Nat.eqb]. eexists. split; [reflexivity|].
    now rewrite length_map, length_seq.
Qed.

Lemma bias_check_spec {F} (b query key : T4 F) :
  forallb (fun p => (fst p =? 1) || (fst p =? snd p))
          (combine [dim0 b; dim1 b; dim2 b; dim3 b]
                   [dim0 query; dim2 query; dim1 query; dim1 key]) = true <->
  bias_broadcastable b query key.
Proof.
  unfold bias_broadcastable. cbn [combine forallb fst snd].
  rewrite !andb_true_iff, !orb_true_iff, !Nat.eqb_eq. tauto.
Qed.

(** X1.  The entry point stops at the first of these, in this order: the
    cut of the query (division by zero when the query chunk size is 0,
    einops error when it does not divide the query length), the same
    for the cut of the key and then of the value with the key chunk
    size, the inspection of an absent bias, the assertion on a bias that
    does not broadcast, and the scan over key and value blocks of
    different counts. *)
Theorem blockwise_attn_errors {F : Type} {D : DType F}
    (query key value : T4 F) (bias : option (T4 F)) (deterministic : bool)
    (dropout_rng : T4 bool) (attn_pdrop : F) (causal : bool)
    (query_chunk_size key_chunk_size : nat) :
  let run := blockwise_attn query key value bias deterministic dropout_rng
               attn_pdrop causal query_chunk_size key_chunk_size in
  let query_cut :=
    0 < query_chunk_size /\ dim1 query mod query_chunk_size = 0 in
  let cuts :=
    query_cut /\ 0 < key_chunk_size /\
    dim1 key mod key_chunk_size = 0 /\ dim1 value mod key_chunk_size = 0 in
  (query_chunk_size = 0 -> run = inl ZeroDivisionError) /\
  (0 < query_chunk_size -> dim1 query mod query_chunk_size <> 0 ->
   run = inl EinopsError) /\
  (query_cut -> key_chunk_size = 0 -> run = inl ZeroDivisionError) /\
  (query_cut -> 0 < key_chunk_size ->
   dim1 key mod key_chunk_size <> 0 \/ dim1 value mod key_chunk_size <> 0 ->
   run = inl EinopsError) /\
  (cuts -> bias = None -> run = inl AttributeError) /\
  (cuts -> forall b, bias = Some b -> ~ bias_broadcastable b query key ->
   run = inl AssertionError) /\
  (cuts -> forall b, bias = Some b -> bias_broadcastable b query key ->
   dim1 key <> dim1 value -> run = inl ValueError).
Proof.
  intros run query_cut cuts. unfold run, cuts, query_cut, blockwise_attn.
  set (scaled := map4 _ query).
  assert (Hs : shape4 scaled = shape4 query) by apply shape4_map4.
  unfold shape4 in Hs. injection Hs as Hd0 Hd1 Hd2 Hd3.
  rewrite Hd0, Hd1, Hd2.
  assert (Hq : length (hd [] scaled) = dim1 query) by exact Hd1.
  destruct (rearrange_split_cases query_chunk_size scaled) as (Q0 & Qe & Qt).
  destruct (rearrange_split_cases key_chunk_size key) as (K0 & Ke & Kt).
  destruct (rearrange_split_cases key_chunk_size value) as (V0 & Ve & Vt).
  rewrite Hq in Qe, Qt.
  fold (dim1 key) in Ke, Kt. fold (dim1 value) in Ve, Vt.
  assert (Hrest : 0 < query_chunk_size /\
                  dim1 query mod query_chunk_size = 0 ->
                  0 < key_chunk_size ->
                  dim1 key mod key_chunk_size = 0 ->
                  dim1 value mod key_chunk_size = 0 ->
                  exists qb kb vb,
                    rearrange_split query_chunk_size scaled = inr qb /\
                    rearrange_split key_chunk_size key = inr kb /\
                    rearrange_split key_chunk_size value = inr vb /\
                    length kb = dim1 key / key_chunk_size /\
                    length vb = dim1 value / key_chunk_size).
  { intros [Hq0 Hqm] Hk0 Hkm Hvm.
    destruct (Qt Hq0 Hqm) as (qb & Eq & _).
    destruct (Kt Hk0 Hkm) as (kb & Ek & Lk).
    destruct (Vt Hk0 Hvm) as (vb & Ev & Lv).
    exists qb, kb, vb. auto. }
  split; [|split; [|split; [|split; [|split; [|split]]]]].
  - intros H. now rewrite (Q0 H).
  - intros H0 Hm. now rewrite (Qe H0 Hm).
  - intros [Hq0 Hqm] H. destruct (Qt Hq0 Hqm) as (qb & -> & _).
    cbn [bind]. now rewrite (K0 H).
  - intros [Hq0 Hqm] Hk0 Hm. destruct (Qt Hq0 Hqm) as (qb & -> & _).
    cbn [bind].
    destruct (Nat.eq_dec (dim1 key mod key_chunk_size) 0) as [Hkm|Hkm].
    + destruct (Kt Hk0 Hkm) as (kb & -> & _). cbn [bind].
      destruct Hm as [Hm|Hm]; [contradiction|]. now rewrite (Ve Hk0 Hm).
    + now rewrite (Ke Hk0 Hkm).
  - intros (Hqc & Hk0 & Hkm & Hvm) ->.
    destruct (Hrest Hqc Hk0 Hkm Hvm) as (qb & kb & vb & -> & -> & -> & _).
    reflexivity.
  - intros (Hqc & Hk0 & Hkm & Hvm) b -> Hn.
    destruct (Hrest Hqc Hk0 Hkm Hvm) as (qb & kb & vb & -> & -> & -> & _).
    cbn [bind]. destruct (forallb _ _) eqn:E; [|reflexivity].
    apply bias_check_spec in E. contradiction.
  - intros (Hqc & Hk0 & Hkm & Hvm) b -> Hb Hne.
    destruct (Hrest Hqc Hk0 Hkm Hvm)
      as (qb & kb & vb & -> & -> & -> & Lk & Lv).
    cbn [bind]. apply bias_check_spec in Hb. rewrite Hb.
    destruct (Nat.eqb_spec (length kb) (length vb)) as [E|E]; [|reflexivity].
    exfalso. apply Hne. rewrite Lk, Lv in E.
    apply Nat.Div0.div_exact in Hkm, Hvm. rewrite Hkm, Hvm, E. reflexivity.
Qed.

Lemma blockwise_attn_errors_witness :
  blockwise_attn (D := ideal) Example1.query Example1.key Example2.value
    (Some Example1.bias) true [] (Fin 0) false 2 2 = inl ValueError.
Proof.
  refine (proj2 (proj2 (proj2 (proj2 (proj2 (proj2
            (@blockwise_attn_errors xreal ideal Example1.query Example1.key
               Example2.value (Some Example1.bias) true [] (Fin 0) false
               2 2))))))
            _ Example1.bias eq_refl _ _).
  - repeat split; try reflexivity; cbn; lia.
  - unfold bias_broadcastable. cbn. tauto.
  - cbn. lia.
Defined.



Lemma rearrange_nc_cases {A} c (l : list A) :
  (c = 0 -> rearrange_nc c l = inl ZeroDivisionError) /\
  (0 < c -> length l mod c <> 0 -> rearrange_nc c l = inl EinopsError) /\
  (0 < c -> length l mod c = 0 -> rearrange_nc c l = inr (chunks c l)).
Proof.
  unfold rearrange_nc. repeat split.
  - now intros ->.
  - intros Hc Hm. destruct (Nat.eqb_spec c 0); [lia|].
    now destruct (Nat.eqb_spec (length l mod c) 0).
  - intros Hc Hm. destruct (Nat.eqb_spec c 0); [lia|]. now rewrite Hm.
Qed.

(** X3.  The loss aggregator stops at the first of these: a division by
    zero when the block size is 0, an einops error when a positive
    block size does not divide one of the three flattened lengths, the
    scan over arrays of different block counts when the three lengths
    are not the same; otherwise it returns a loss and an accuracy. *)
Theorem blockwise_cross_entropy_outcome {F : Type} {D : DType F}
    (logits : list (list (list F))) (tokens : list (list nat))
    (chunk_size : nat) (valid : option (list (list F))) :
  let valid' :=
    match valid with
    | None => map (map (fun _ => one)) tokens
    | Some v => v
    end in
  let nl := length (concat logits) in
  let nt := length (concat tokens) in
  let nv := length (concat valid') in
  let run := blockwise_cross_entropy logits tokens chunk_size valid in
  let cuts :=
    0 < chunk_size /\ nl mod chunk_size = 0 /\ nt mod chunk_size = 0 /\
    nv mod chunk_size = 0 in
  (chunk_size = 0 -> run = inl ZeroDivisionError) /\
  (0 < chunk_size ->
   nl mod chunk_size <> 0 \/ nt mod chunk_size <> 0 \/
   nv mod chunk_size <> 0 ->
   run = inl EinopsError) /\
  (cuts -> nl <> nt \/ nv <> nt -> run = inl ValueError) /\
  (cuts -> nl = nt -> nv = nt ->
   exists loss accuracy, run = inr (loss, accuracy)).
Proof.
  intros valid' nl nt nv run cuts.
  unfold run, cuts, blockwise_cross_entropy. fold valid'. fold nl nt nv.
  destruct (rearrange_nc_cases chunk_size (concat logits)) as (L0 & Le & Lt).
  destruct (rearrange_nc_cases chunk_size (concat tokens)) as (T0 & Te & Tt).
  destruct (rearrange_nc_cases chunk_size (concat valid')) as (V0 & Ve & Vt).
  fold nl in Le, Lt. fold nt in Te, Tt. fold nv in Ve, Vt.
  assert (Hn : forall A (l : list A),
            length (chunks chunk_size l) = length l / chunk_size).
  { intros A l. unfold chunks. now rewrite length_map, length_seq. }
  split; [|split; [|split]].
  - intros H. now rewrite (L0 H).
  - intros Hc Hm.
    destruct (Nat.eq_dec (nl mod chunk_size) 0) as [Hlm|Hlm];
      [|now rewrite (Le Hc Hlm)].
    rewrite (Lt Hc Hlm). cbn [bind].
    destruct (Nat.eq_dec (nt mod chunk_size) 0) as [Htm|Htm];
      [|now rewrite (Te Hc Htm)].
    rewrite (Tt Hc Htm). cbn [bind].
    destruct Hm as [Hm|[Hm|Hm]]; try contradiction.
    now rewrite (Ve Hc Hm).
  - intros (Hc & Hlm & Htm & Hvm) Hne.
    rewrite (Lt Hc Hlm), (Tt Hc Htm), (Vt Hc Hvm). cbn [bind].
    rewrite !Hn. fold nl nt nv.
    apply Nat.Div0.div_exact in Hlm, Htm, Hvm.
    destruct (Nat.eqb_spec (nl / chunk_size) (nt / chunk_size)) as [E1|E1];
      [|reflexivity].
    destruct (Nat.eqb_spec (nt / chunk_size) (nv / chunk_size)) as [E2|E2];
      [|reflexivity].
    exfalso. destruct Hne as [Hne|Hne]; apply Hne; nia.
  - intros (Hc & Hlm & Htm & Hvm) E1 E2.
    rewrite (Lt Hc Hlm), (Tt Hc Htm), (Vt Hc Hvm). cbn [bind].
    rewrite !Hn. fold nl nt nv. rewrite E1, E2, !Nat.eqb_refl. cbn [andb].
    destruct (scan _ _ _) as [[[loss accuracy] num] ys]. eauto.
Qed.

Lemma blockwise_cross_entropy_outcome_witness :
  blockwise_cross_entropy (D := ideal) Example3.logits Example3.tokens 1
    (Some [[Fin 1; Fin 1]]) = inl ValueError.
Proof.
  refine (proj1 (proj2 (proj2
            (@blockwise_cross_entropy_outcome xreal ideal Example3.logits
               Example3.tokens 1 (Some [[Fin 1; Fin 1]])))) _ _).
  - repeat split; try reflexivity. lia.
  - right. cbn. lia.
Defined.

(** ** The loss aggregator in exact arithmetic *)

Section LossEdges.
Import Ideal IdealFacts.
Local Open Scope R_scope.

Lemma xadd_0_r x : xadd x (Fin 0) = x.
Proof. destruct x; try reflexivity. cbn. f_equal. lra. Qed.

Lemma xadd_0_l x : xadd (Fin 0) x = x.
Proof. destruct x; try reflexivity. cbn. f_equal. lra. Qed.

Lemma sum_zeros (l : list xreal) a :
  Forall (fun v => v = Fin 0) l -> fold_left xadd l (Fin a) = Fin a.
Proof.
  intros H. revert a. induction H as [|v l -> _ IH]; intros a;
    [reflexivity|].
  cbn [fold_left xadd]. rewrite IH. f_equal. lra.
Qed.

Lemma concat_nil_length {A} (l : list (list A)) :
  length (concat l) = 0%nat -> concat l = [].
Proof. now destruct (concat l). Qed.

Lemma length_concat_ones {A} (tokens : list (list A)) (x : xreal) :
  length (concat (map (map (fun _ => x)) tokens)) = length (concat tokens).
Proof.
  induction tokens as [|row rows IH]; [reflexivity|].
  simpl. now rewrite !length_app, length_map, IH.
Qed.

(** X4.  On an empty input (no position at all) the aggregator divides
    zero by a zero block count: loss and accuracy are both NaN. *)
Theorem cross_entropy_of_nothing
    (logits : list (list (list xreal))) (tokens : list (list nat))
    (chunk_size : nat) (valid : option (list (list xreal))) :
  (0 < chunk_size)%nat ->
  concat logits = [] ->
  concat tokens = [] ->
  match valid with
  | None => True
  | Some v => concat v = []
  end ->
  blockwise_cross_entropy logits tokens chunk_size valid = inr (NaN, NaN).
Proof.
  intros Hc Hl Ht Hv.
  pose proof (@cross_entropy_closed_form xreal ideal logits tokens
                chunk_size valid) as E.
  cbv zeta in E.
  assert (Hv' : concat match valid with
                       | None => map (map (fun _ => one)) tokens
                       | Some v => v
                       end = []).
  { destruct valid as [v|]; [assumption|].
    apply concat_nil_length. rewrite (length_concat_ones tokens one).
    now rewrite Ht. }
  rewrite Hl, Ht, Hv' in E. cbn [length] in E.
  rewrite Nat.Div0.mod_0_l in E.
  specialize (E Hc eq_refl eq_refl eq_refl eq_refl eq_refl).
  unfold chunks in E. cbn [length] in E.
  rewrite Nat.Div0.div_0_l in E. cbn [seq map combine length] in E.
  rewrite E. unfold sum. cbn [fold_left neg zero div of_nat ideal xneg INR].
  unfold xdiv. rewrite Rsign_zero. rewrite Ropp_0, Rsign_zero. reflexivity.
Qed.

Lemma cross_entropy_of_nothing_witness :
  blockwise_cross_entropy (D := ideal) [] [] 4 None = inr (NaN, NaN).
Proof.
  apply (@cross_entropy_of_nothing [] [] 4 None);
    first [lia | reflexivity | exact I].
Defined.

(** X5.  A block whose validity entries are all 0 leaves the loss sum
    and the accuracy sum as they are, whatever its logits and targets,
    and still counts as a block. *)
Theorem invalid_block_counts_for_nothing
    (loss accuracy : xreal) (num : nat)
    (logits : list (list xreal)) (tokens : list nat) (valid : list xreal) :
  Forall (fun v => v = Fin 0) valid ->
  _loss_and_accuracy (loss, accuracy, num) (logits, tokens, valid) =
  ((loss, accuracy, (num + 1)%nat), tt).
Proof.
  intros Hv. unfold _loss_and_accuracy, loss_acc, sum.
  cbn [add maximum div zero ideal lit_1e_10 of_nat ltb].
  rewrite (sum_zeros 0 Hv). cbn [xmax].
  assert (Hm : 0 < Rmax 0 (/ 10 ^ 10)).
  { pose proof (Rmax_r 0 (/ 10 ^ 10)). pose proof eps_pos. lra. }
  set (tlp := zip_with (fun row tok => nth tok (log_softmax row) nan) _ _).
  set (cs := zip_with (fun row tok => argmax row =? tok) _ _).
  assert (Hz : Forall (fun v => v = Fin 0)
                 (zip_with (fun v t => if xltb (Fin 0) v then t else Fin 0)
                           valid tlp)).
  { clearbody tlp. revert tlp.
    induction Hv as [|v l -> _ IH]; intros [|t tlp]; cbn [zip_with];
      try constructor.
    - now rewrite xltb_ge by lra.
    - apply IH. }
  assert (Hc : count_true
                 (zip_with (fun v c => if xltb (Fin 0) v then c else false)
                           valid cs) = 0%nat).
  { clear Hz. clearbody cs. revert cs.
    induction Hv as [|v l -> _ IH]; intros [|c cs]; cbn [zip_with];
      try reflexivity.
    rewrite xltb_ge by (apply Rle_refl). exact (IH cs). }
  rewrite (sum_zeros 0 Hz), Hc. cbn [INR].
  rewrite !xdiv_pos by assumption.
  replace (0 / Rmax 0 (/ 10 ^ 10)) with 0 by (field; lra).
  now rewrite !xadd_0_r.
Qed.

Lemma invalid_block_counts_for_nothing_witness :
  _loss_and_accuracy (D := ideal) (Fin 1, Fin 1, 3%nat)
    ([[Fin 0; Fin 0]], [0%nat], [Fin 0]) =
  ((Fin 1, Fin 1, (3 + 1)%nat), tt).
Proof.
  apply (@invalid_block_counts_for_nothing (Fin 1) (Fin 1) 3
           [[Fin 0; Fin 0]] [0%nat] [Fin 0]).
  repeat constructor.
Defined.
End LossEdges.

(** ** Blocks of a flattened sequence *)

Lemma combine_tab {A B} n (g : nat -> A) (h : nat -> B) :
  combine (tab n g) (tab n h) = tab n (fun i => (g i, h i)).
Proof.
  revert g h. induction n as [|n IH]; intros g h; [reflexivity|].
  rewrite !tab_S. simpl. now rewrite IH.
Qed.

Lemma zip_with_firstn {A B C} (f : A -> B -> C) n l1 l2 :
  zip_with f (firstn n l1) (firstn n l2) = firstn n (zip_with f l1 l2).
Proof.
  revert l1 l2. induction n as [|n IH]; intros [|x l1] [|y l2];
    try reflexivity.
  simpl. now rewrite IH.
Qed.

Lemma zip_with_skipn {A B C} (f : A -> B -> C) n l1 l2 :
  zip_with f (skipn n l1) (skipn n l2) = skipn n (zip_with f l1 l2).
Proof.
  revert l1 l2. induction n as [|n IH]; intros [|x l1] [|y l2];
    try reflexivity.
  - simpl. now destruct (skipn n l1).
  - simpl. apply IH.
Qed.

Lemma zip_with_length {A B C} (f : A -> B -> C) l1 l2 :
  length (zip_with f l1 l2) = Nat.min (length l1) (length l2).
Proof.
  revert l2. induction l1 as [|x l1 IH]; intros [|y l2]; try reflexivity.
  simpl. now rewrite IH.
Qed.

Lemma chunk_length {A} c i n (l : list A) :
  length l = n * c -> i < n -> length (firstn c (skipn (i * c) l)) = c.
Proof.
  intros Hl Hi. rewrite length_firstn, length_skipn, Hl. nia.
Qed.

Lemma chunks_as_tab {A} c n (l : list A) :
  0 < c -> length l = n * c ->
  chunks c l = tab n (fun i => firstn c (skipn (i * c) l)).
Proof.
  intros Hc Hl. unfold chunks. rewrite Hl, Nat.div_mul by lia. reflexivity.
Qed.

Lemma concat_chunks {A} c n (l : list A) :
  0 < c -> length l = n * c -> concat (chunks c l) = l.
Proof.
  intros Hc. revert l. induction n as [|n IH]; intros l Hl.
  - destruct l; [|discriminate]. unfold chunks. simpl.
    now rewrite Nat.Div0.div_0_l.
  - rewrite (@chunks_as_tab _ c (S n) l) by assumption.
    rewrite tab_S. cbn [concat]. simpl Nat.mul. cbn [skipn].
    transitivity (firstn c l ++ skipn c l); [|apply firstn_skipn]. f_equal.
    rewrite <- (IH (skipn c l)) by (rewrite length_skipn, Hl; simpl; lia).
    rewrite (@chunks_as_tab _ c n (skipn c l))
      by (try assumption; rewrite length_skipn, Hl; simpl; lia).
    f_equal. apply tab_ext. intros i _. f_equal.
    rewrite skipn_skipn. f_equal. simpl. lia.
Qed.

Lemma count_true_app l1 l2 :
  count_true (l1 ++ l2) = count_true l1 + count_true l2.
Proof. unfold count_true. now rewrite filter_app, length_app. Qed.

Lemma count_true_concat ls :
  count_true (concat ls) = list_sum (map count_true ls).
Proof.
  induction ls as [|l ls IH]; [reflexivity|].
  simpl. now rewrite count_true_app, IH.
Qed.

(** ** Accuracy without a mask *)

Section AccuracyNoMask.
Import Ideal IdealFacts.
Local Open Scope R_scope.

Lemma eps_lt_1 : / 10 ^ 10 < 1.
Proof.
  rewrite <- Rinv_1. apply Rinv_lt_contravar.
  - rewrite Rmult_1_l. apply pow_lt. lra.
  - apply Rlt_pow_R1; [lra|lia].
Qed.

Lemma fold_fractions n (g : nat -> nat) (c a : R) :
  fold_left xadd (tab n (fun i => Fin (INR (g i) / c))) (Fin a) =
  Fin (a + INR (list_sum (tab n g)) / c).
Proof.
  revert g a. induction n as [|n IH]; intros g a.
  - simpl. f_equal. unfold Rdiv. lra.
  - rewrite !tab_S. cbn [fold_left xadd].
    rewrite (IH (fun i => g (S i))).
    change (list_sum (g 0%nat :: tab n (fun i => g (S i))))
      with (g 0%nat + list_sum (tab n (fun i => g (S i))))%nat.
    rewrite plus_INR. f_equal. unfold Rdiv. lra.
Qed.

Lemma filter_all {A} (P : A -> bool) l :
  Forall (fun x => P x = true) l -> filter P l = l.
Proof.
  induction 1 as [|x l Hx _ IH]; [reflexivity|].
  simpl. now rewrite Hx, IH.
Qed.

Lemma zip_with_all_valid (vl : list xreal) (cs : list bool) :
  Forall (fun v => v = Fin 1) vl -> length vl = length cs ->
  zip_with (fun v c => if xltb (Fin 0) v then c else false) vl cs = cs.
Proof.
  intros H. revert cs.
  induction H as [|v l -> _ IH]; intros [|c cs] Hl; try discriminate;
    [reflexivity|].
  cbn [zip_with]. rewrite xltb_lt by lra. f_equal. apply IH.
  now injection Hl.
Qed.

Lemma block_accuracy_all_valid (c : nat) lg tk (vl : list xreal) :
  (0 < c)%nat ->
  Forall (fun v => v = Fin 1) vl ->
  length lg = c -> length tk = c -> length vl = c ->
  block_accuracy_contribution (lg, tk, vl) =
  Fin (INR (count_true (zip_with (fun row tok => argmax row =? tok) lg tk))
       / INR c).
Proof.
  intros Hc Hv Hlg Htk Hvl.
  unfold block_accuracy_contribution, block_valid_count, sum.
  cbn [add maximum div zero ideal lit_1e_10 of_nat ltb].
  assert (Hind : Forall indicator vl).
  { eapply Forall_impl; [|exact Hv]. intros v ->. now right. }
  rewrite (sum_indicators Hind).
  rewrite filter_all
    by (eapply Forall_impl; [|exact Hv]; intros v ->; apply xltb_lt; lra).
  rewrite Hvl, zip_with_all_valid
    by (try assumption; rewrite zip_with_length, Hlg, Htk, Hvl;
        now rewrite Nat.min_id).
  cbn [xmax].
  assert (H1 : 1 <= INR c) by (apply (le_INR 1); lia).
  pose proof eps_lt_1.
  rewrite Rmax_left by lra. rewrite xdiv_pos by lra.
  f_equal. f_equal. lra.
Qed.

(** X6.  With no mask, and whatever block size divides the number of
    positions, the accuracy is the number of positions whose top-1
    prediction is the target, over the number of positions. *)
Theorem accuracy_without_mask
    (logits : list (list (list xreal))) (tokens : list (list nat))
    (chunk_size : nat) :
  (0 < chunk_size)%nat ->
  (0 < length (concat tokens))%nat ->
  (length (concat tokens) mod chunk_size = 0)%nat ->
  length (concat logits) = length (concat tokens) ->
  exists loss,
    blockwise_cross_entropy logits tokens chunk_size None =
    inr (loss,
         Fin (INR (count_true
                     (zip_with (fun row tok => argmax row =? tok)
                               (concat logits) (concat tokens)))
              / INR (length (concat tokens)))).
Proof.
  intros Hc Hpos Hmod Hlg.
  pose proof (@cross_entropy_closed_form xreal ideal logits tokens
                chunk_size None) as E.
  cbv zeta in E. change (@one xreal ideal) with (Fin 1) in E.
  rewrite Hlg, (length_concat_ones tokens (Fin 1)) in E.
  specialize (E Hc Hmod Hmod Hmod eq_refl eq_refl).
  set (L := concat logits) in *. set (T := concat tokens) in *.
  set (V := concat (map (map (fun _ => Fin 1)) tokens)) in *.
  assert (HV : length V = length T) by apply length_concat_ones.
  assert (Hones : Forall (fun v => v = Fin 1) V).
  { apply Forall_forall. intros v Hv. unfold V in Hv.
    apply in_concat in Hv as (row & Hrow & Hv).
    apply in_map_iff in Hrow as (r & <- & _).
    now apply in_map_iff in Hv as (t & <- & _). }
  set (n := (length T / chunk_size)%nat).
  assert (HT : length T = (n * chunk_size)%nat).
  { unfold n. apply Nat.Div0.div_exact in Hmod. lia. }
  assert (Hn : (0 < n)%nat) by nia.
  set (Z := zip_with (fun row tok => argmax row =? tok) L T).
  assert (HZ : length Z = (n * chunk_size)%nat).
  { unfold Z. rewrite zip_with_length, Hlg, HT. apply Nat.min_id. }
  rewrite (@chunks_as_tab _ chunk_size n L) in E by (try assumption; lia).
  rewrite (@chunks_as_tab _ chunk_size n T) in E by assumption.
  rewrite (@chunks_as_tab _ chunk_size n V) in E by (try assumption; lia).
  rewrite !combine_tab, tab_length in E.
  rewrite (map_tab block_accuracy_contribution) in E.
  rewrite (@tab_ext _ n _
             (fun i => Fin (INR (count_true
                       (firstn chunk_size (skipn (i * chunk_size) Z)))
                     / INR chunk_size))) in E.
  2:{ intros i Hi.
      assert (Hvi : Forall (fun v => v = Fin 1)
                      (firstn chunk_size (skipn (i * chunk_size) V))).
      { apply Forall_forall. intros v Hv.
        rewrite Forall_forall in Hones. apply Hones.
        apply (in_chunks chunk_size V
                 (firstn chunk_size (skipn (i * chunk_size) V)));
          [|assumption].
        rewrite (@chunks_as_tab _ chunk_size n V) by (try assumption; lia).
        unfold tab. apply in_map_iff. exists i.
        split; [reflexivity|apply in_seq; lia]. }
      assert (HL : length L = (n * chunk_size)%nat) by lia.
      assert (HV' : length V = (n * chunk_size)%nat) by lia.
      rewrite (@block_accuracy_all_valid chunk_size _ _ _ Hc Hvi
                 (@chunk_length _ chunk_size i n L HL Hi)
                 (@chunk_length _ chunk_size i n T HT Hi)
                 (@chunk_length _ chunk_size i n V HV' Hi)).
      now rewrite zip_with_firstn, zip_with_skipn. }
  eexists. rewrite E. f_equal. f_equal.
  unfold sum. cbn [add zero div of_nat ideal].
  rewrite (fold_fractions n
             (fun i => count_true
                         (firstn chunk_size (skipn (i * chunk_size) Z)))).
  rewrite <- (map_tab count_true), <- (@chunks_as_tab _ chunk_size n Z)
    by assumption.
  rewrite <- count_true_concat, (@concat_chunks _ chunk_size n Z)
    by assumption.
  assert (Hc' : 0 < INR chunk_size) by (apply lt_0_INR; lia).
  assert (Hn' : 0 < INR n) by (apply lt_0_INR; lia).
  rewrite xdiv_pos by assumption. f_equal.
  rewrite HT, mult_INR. field. lra.
Qed.

Lemma accuracy_without_mask_witness :
  exists loss,
    blockwise_cross_entropy (D := ideal) [[[Fin 0; NaN]]] [[1%nat]] 1 None =
    inr (loss, Fin (INR 1 / INR 1)).
Proof.
  apply (@accuracy_without_mask [[[Fin 0; NaN]]] [[1%nat]] 1);
    first [simpl; lia | reflexivity].
Defined.
End AccuracyNoMask.

(** ** Splitting and reassembling the sequence axis *)

(** X8.  Cutting the sequence axis into blocks the way the entry point
    does and putting the blocks back the way it does is not the
    identity: with [n] blocks of size [c], position [i] of the result
    holds position [(i mod c) * n + i / c] of the input.  It is the
    identity when there is one block or when the blocks have size 1. *)
Theorem split_then_merge {X : Type} (c n : nat) (t : list (list (list X))) :
  0 < c ->
  Forall (fun row => length row = n * c) t ->
  exists blocks,
    rearrange_split c t = inr blocks /\
    rearrange_merge (length t) blocks =
    map (fun row =>
           tab (n * c) (fun i => nth ((i mod c) * n + i / c) row []))
        t /\
    (n = 1 \/ c = 1 -> rearrange_merge (length t) blocks = t).
Proof.
  intros Hc Hrows. unfold rearrange_split.
  assert (Hlen : t <> [] -> length (hd [] t) = n * c).
  { destruct t as [|row t]; [congruence|]. intros _.
    now inversion Hrows. }
  destruct t as [|row0 t'] eqn:Et.
  { eexists. cbn [hd length]. rewrite Nat.Div0.mod_0_l.
    destruct (Nat.eqb_spec c 0) as [Hz|_]; [lia|]. cbn [Nat.eqb].
    split; [reflexivity|]. split; [reflexivity|]. intros _. reflexivity. }
  rewrite <- Et in *. rewrite Hlen by (rewrite Et; discriminate).
  rewrite Nat.Div0.mod_mul, Nat.div_mul by lia.
  destruct (Nat.eqb_spec c 0) as [Hz|_]; [lia|]. cbn [Nat.eqb].
  eexists. split; [reflexivity|].
  assert (Hperm :
    rearrange_merge (length t)
      (map (fun ni =>
              map (fun tb => map (fun ci => nth (ci * n + ni) tb []) (seq 0 c))
                  t)
           (seq 0 n)) =
    map (fun row =>
           tab (n * c) (fun i => nth ((i mod c) * n + i / c) row []))
        t).
  { unfold rearrange_merge. to_tab.
    rewrite (map_as_tab _ t []). apply tab_ext. intros b Hb.
    rewrite map_tab.
    rewrite <- (concat_tab_tab n c
                  (fun i => nth ((i mod c) * n + i / c) (nth b t []) [])).
    f_equal. apply tab_ext. intros ni Hni.
    rewrite (nth_map_in _ _ _ []) by assumption.
    to_tab. apply tab_ext. intros ci Hci. f_equal.
    replace (ni * c + ci) with (ci + ni * c) by lia.
    rewrite Nat.Div0.mod_add, Nat.div_add by lia.
    rewrite Nat.mod_small, Nat.div_small by assumption. lia. }
  split; [exact Hperm|]. intros Hid. rewrite Hperm.
  transitivity (map (fun row : list (list X) => row) t); [|apply map_id].
  apply map_ext_in. intros row Hrow.
  rewrite Forall_forall in Hrows. specialize (Hrows row Hrow).
  transitivity (tab (n * c) (fun i => nth i row []));
    [|rewrite <- Hrows; symmetry; apply list_as_tab].
  apply tab_ext. intros i Hi. f_equal.
  destruct Hid as [-> | ->].
  - rewrite Nat.mul_1_l in Hi.
    rewrite Nat.mod_small, Nat.div_small by assumption. lia.
  - rewrite Nat.mod_1_r, Nat.div_1_r. lia.
Qed.

Lemma split_then_merge_witness :
  exists blocks,
    rearrange_split 2 [[[0]; [1]; [2]; [3]]] = inr blocks /\
    rearrange_merge 1 blocks = [[[0]; [2]; [1]; [3]]].
Proof.
  destruct (@split_then_merge nat 2 2 [[[0]; [1]; [2]; [3]]]) as (b & E & P & _).
  - lia.
  - repeat constructor.
  - exists b. split; [exact E|exact P].
Defined.

(** ** The causal tile and the skip policy *)

Lemma causal_flag_entry qcs kcs qi ki q k :
  q < qcs -> k < kcs ->
  nth k (nth q (causal_flags qcs kcs
                  (Z.of_nat (qi * qcs) - Z.of_nat (ki * kcs))) []) false =
  (qi * qcs + q <? ki * kcs + k).
Proof.
  intros Hq Hk. unfold causal_flags, iota. to_tab.
  rewrite map_tab, nth_tab by assumption.
  rewrite map_tab, nth_tab by assumption.
  destruct (Z.ltb_spec (Z.of_nat q + (Z.of_nat (qi * qcs) - Z.of_nat (ki * kcs)))
                       (Z.of_nat k));
    destruct (Nat.ltb_spec (qi * qcs + q) (ki * kcs + k)); try reflexivity; lia.
Qed.

Lemma causal_mask_value_entries {F} {D : DType F} qcs kcs qi ki :
  causal_mask_value qcs kcs (Z.of_nat (qi * qcs) - Z.of_nat (ki * kcs)) =
  tab qcs (fun q => tab kcs (fun k =>
    mul (of_bool (qi * qcs + q <? ki * kcs + k)) finfo_min)).
Proof.
  unfold causal_mask_value, iota. to_tab. rewrite map_tab.
  apply tab_ext. intros q Hq. rewrite map_tab. apply tab_ext. intros k Hk.
  f_equal. f_equal.
  destruct (Z.ltb_spec (Z.of_nat q + (Z.of_nat (qi * qcs) - Z.of_nat (ki * kcs)))
                       (Z.of_nat k));
    destruct (Nat.ltb_spec (qi * qcs + q) (ki * kcs + k)); try reflexivity; lia.
Qed.

Lemma causal_mask_value_flags {F} {D : DType F} qcs kcs offset :
  causal_mask_value qcs kcs offset =
  map (map (fun flag => mul (of_bool flag) finfo_min))
      (causal_flags qcs kcs offset).
Proof.
  unfold causal_mask_value, causal_flags. rewrite map_map.
  apply map_ext. intros q. now rewrite map_map.
Qed.

(** X9.  Without bias and without dropout the causal tile of a block
    pair has shape (1, 1, query block size, key block size); its entry
    at (q, k) is zero plus [finfo.min] times the flag "the key position
    [key_chunk_idx * key_chunk_size + k] lies beyond the query position
    [query_chunk_idx * query_chunk_size + q]". *)
Theorem causal_tile_entries {F : Type} {D : DType F}
    (query_chunk_size key_chunk_size : nat) (attn_dropout : option (T4 bool))
    (attn_pdrop : F) (query_chunk_idx key_chunk_idx : nat) :
  _chunk_attention_bias query_chunk_size key_chunk_size None true
    attn_dropout attn_pdrop true query_chunk_idx key_chunk_idx =
  tab4 1 1 query_chunk_size key_chunk_size
       (fun _ _ q k =>
          add zero
              (mul (of_bool (query_chunk_idx * query_chunk_size + q <?
                             key_chunk_idx * key_chunk_size + k))
                   finfo_min)).
Proof.
  unfold _chunk_attention_bias. cbn [negb andb].
  rewrite causal_mask_value_entries.
  change (full4 1 1 1 1 zero) with (tab4 1 1 1 1 (fun _ _ _ _ : nat => zero)).
  change [[tab query_chunk_size (fun q => tab key_chunk_size (fun k =>
             mul (of_bool (query_chunk_idx * query_chunk_size + q <?
                           key_chunk_idx * key_chunk_size + k)) finfo_min))]]
    with (tab4 1 1 query_chunk_size key_chunk_size
            (fun (_ _ : nat) q k =>
               mul (of_bool (query_chunk_idx * query_chunk_size + q <?
                             key_chunk_idx * key_chunk_size + k)) finfo_min)).
  unfold add4. rewrite bop4_tab4 by auto with shapes.
  apply tab4_ext. intros i j q k _ _ Hq Hk.
  change (bdim 1 query_chunk_size) with query_chunk_size in Hq.
  change (bdim 1 key_chunk_size) with key_chunk_size in Hk.
  now rewrite (bidx_same Hq), (bidx_same Hk).
Qed.

(** X10.  A causal tile is masked at every entry exactly when the last
    query position of the block lies before the first key position;
    with equal block sizes those are exactly the pairs the reduction
    skips. *)
Theorem skipped_pairs_are_fully_masked {F : Type} {D : DType F}
    (query_chunk_size key_chunk_size query_chunk_idx key_chunk_idx : nat) :
  0 < query_chunk_size -> 0 < key_chunk_size ->
  let offset :=
    (Z.of_nat (query_chunk_idx * query_chunk_size) -
     Z.of_nat (key_chunk_idx * key_chunk_size))%Z in
  let flags := causal_flags query_chunk_size key_chunk_size offset in
  let all_masked :=
    forall q k, q < query_chunk_size -> k < key_chunk_size ->
                nth k (nth q flags []) false = true in
  causal_mask_value query_chunk_size key_chunk_size offset =
  map (map (fun flag => mul (of_bool flag) finfo_min)) flags /\
  (all_masked <->
   (query_chunk_idx + 1) * query_chunk_size <=
   key_chunk_idx * key_chunk_size) /\
  (query_chunk_size = key_chunk_size ->
   (skip_block true query_chunk_idx key_chunk_idx = true <-> all_masked)).
Proof.
  intros Hq Hk offset flags all_masked.
  split; [apply causal_mask_value_flags|].
  assert (Hall : all_masked <->
                 (query_chunk_idx + 1) * query_chunk_size <=
                 key_chunk_idx * key_chunk_size).
  { unfold all_masked, flags, offset. split.
    - intros H. specialize (H (query_chunk_size - 1) 0).
      rewrite causal_flag_entry in H by lia.
      specialize (H ltac:(lia) Hk). apply Nat.ltb_lt in H. nia.
    - intros H q k Hq' Hk'. rewrite causal_flag_entry by assumption.
      apply Nat.ltb_lt. nia. }
  split; [exact Hall|]. intros E. rewrite Hall. unfold skip_block.
  rewrite Nat.ltb_lt, <- E. split; intros H; nia.
Qed.

Lemma skipped_pairs_are_fully_masked_witness :
  skip_block true 0 1 = true <->
  (forall q k, q < 2 -> k < 2 ->
     nth k (nth q (causal_flags 2 2 (Z.of_nat (0 * 2) - Z.of_nat (1 * 2))) [])
         false = true).
Proof.
  apply (proj2 (proj2 (@skipped_pairs_are_fully_masked xreal ideal 2 2 0 1
                         ltac:(lia) ltac:(lia)))).
  reflexivity.
Defined.

(** X11.  With unequal block sizes the reduction can skip a pair whose
    tile is not fully masked: whenever the key block index exceeds the
    query block index but the key block starts at or before the last
    query position of the query block, the pair is skipped although its
    first key is visible to the last query of the block. *)
Theorem skip_drops_visible_keys {F : Type} {D : DType F}
    (query_chunk_size key_chunk_size query_chunk_idx key_chunk_idx : nat) :
  0 < query_chunk_size -> 0 < key_chunk_size ->
  query_chunk_idx < key_chunk_idx ->
  key_chunk_idx * key_chunk_size <
  (query_chunk_idx + 1) * query_chunk_size ->
  let offset :=
    (Z.of_nat (query_chunk_idx * query_chunk_size) -
     Z.of_nat (key_chunk_idx * key_chunk_size))%Z in
  skip_block true query_chunk_idx key_chunk_idx = true /\
  causal_mask_value query_chunk_size key_chunk_size offset =
  map (map (fun flag => mul (of_bool flag) finfo_min))
      (causal_flags query_chunk_size key_chunk_size offset) /\
  nth 0 (nth (query_chunk_size - 1)
           (causal_flags query_chunk_size key_chunk_size offset) [])
      false = false.
Proof.
  intros Hq Hk Hlt Hvis offset. split; [|split].
  - unfold skip_block. now apply Nat.ltb_lt.
  - apply causal_mask_value_flags.
  - unfold offset. rewrite causal_flag_entry by lia. apply Nat.ltb_ge. nia.
Qed.

Lemma skip_drops_visible_keys_witness :
  skip_block true 0 1 = true /\
  nth 0 (nth (2 - 1)
           (causal_flags 2 1 (Z.of_nat (0 * 2) - Z.of_nat (1 * 1))) [])
      false = false.
Proof.
  destruct (@skip_drops_visible_keys xreal ideal 2 1 0 1) as (A & _ & B);
    try lia.
  split; [exact A|exact B].
Defined.

(** ** Shapes through the engine *)

Lemma has_shape_tab4 {A} n0 n1 n2 n3 (g : nat -> nat -> nat -> nat -> A) :
  has_shape n0 n1 n2 n3 (tab4 n0 n1 n2 n3 g) = true.
Proof.
  unfold has_shape, tab4. rewrite tab_length, Nat.eqb_refl. cbn [andb].
  apply forallb_forall. intros a Ha. apply in_map_iff in Ha as (i & <- & _).
  rewrite tab_length, Nat.eqb_refl. cbn [andb].
  apply forallb_forall. intros b Hb. apply in_map_iff in Hb as (j & <- & _).
  rewrite tab_length, Nat.eqb_refl. cbn [andb].
  apply forallb_forall. intros c Hc. apply in_map_iff in Hc as (k & <- & _).
  now rewrite tab_length, Nat.eqb_refl.
Qed.

Lemma bdim_full n d : d = 1 \/ d = n -> bdim n d = n.
Proof.
  intros [-> | ->]; [apply bdim_1_r|apply bdim_same].
Qed.

Lemma bdim_full_l n d : d = 1 \/ d = n -> bdim d n = n.
Proof.
  intros [-> | ->]; [reflexivity|apply bdim_same].
Qed.

Lemma compat_full n d : d = 1 \/ d = n -> compat n d.
Proof. intros [-> | ->]; auto with shapes. Qed.

Lemma compat_full_l n d : d = 1 \/ d = n -> compat d n.
Proof. intros [-> | ->]; auto with shapes. Qed.

Lemma moveaxis_tab4 {A} n0 n1 n2 n3 (g : nat -> nat -> nat -> nat -> A) :
  0 < n1 ->
  moveaxis_1_2 (tab4 n0 n1 n2 n3 g) =
  tab4 n0 n2 n1 n3 (fun i j k l => g i k j l).
Proof.
  intros H1. unfold moveaxis_1_2, tab4. rewrite map_tab.
  apply tab_ext. intros i _.
  assert (Hl : length (hd [] (tab n1 (fun j => tab n2 (fun k =>
                 tab n3 (g i j k))))) = n2).
  { destruct n1 as [|n1]; [lia|]. rewrite tab_S. cbn [hd]. apply tab_length. }
  rewrite Hl. to_tab. apply tab_ext. intros j Hj.
  rewrite map_tab. apply tab_ext. intros k _. now rewrite nth_tab.
Qed.

Section ShapeLemmas.
Context {F : Type} {D : DType F}.

Lemma einsum_qk_tab4 nb nq nh nk nd (q k : nat -> nat -> nat -> nat -> F) :
  einsum_qk (tab4 nb nq nh nd q) (tab4 nb nk nh nd k) =
  tab4 nb nq nh nk
       (fun b qi h ki => dot (tab nd (q b qi h)) (tab nd (k b ki h))).
Proof.
  unfold einsum_qk, tab4. rewrite zip_with_tab. apply tab_ext. intros b _.
  rewrite map_tab. apply tab_ext. intros qi _.
  rewrite tab_length. to_tab. apply tab_ext. intros h Hh.
  rewrite map_tab. apply tab_ext. intros ki _.
  now rewrite !nth_tab.
Qed.
End ShapeLemmas.

Lemma rearrange_split_tab {X} c n nb (r : nat -> nat -> list X) :
  0 < c -> 0 < nb ->
  rearrange_split c (tab nb (fun b => tab (n * c) (r b))) =
  inr (tab n (fun ni =>
         tab nb (fun b => tab c (fun ci => r b (ci * n + ni))))).
Proof.
  intros Hc Hb. unfold rearrange_split.
  assert (Hl : length (hd [] (tab nb (fun b => tab (n * c) (r b)))) = n * c).
  { destruct nb as [|nb]; [lia|]. rewrite tab_S. cbn [hd]. apply tab_length. }
  rewrite Hl, Nat.Div0.mod_mul, Nat.div_mul by lia.
  destruct (Nat.eqb_spec c 0) as [Hz|_]; [lia|]. cbn [Nat.eqb]. f_equal. to_tab. apply tab_ext. intros ni Hni.
  rewrite map_tab. apply tab_ext. intros b _.
  apply tab_ext. intros ci Hci. apply nth_tab. nia.
Qed.

Lemma slice1_tab_clamped {A} s m len (g : nat -> A) :
  0 < m -> len = 1 \/ s + m <= len ->
  slice1 s (Nat.min len m) (tab len g) =
  tab (Nat.min len m) (fun i => g (if len =? 1 then 0 else s + i)).
Proof.
  intros Hm H. destruct (Nat.eqb_spec len 1) as [->|Hn].
  - rewrite Nat.min_l by lia. unfold slice1. rewrite tab_length.
    rewrite Nat.sub_diag, Nat.min_0_r. reflexivity.
  - destruct H as [H|H]; [contradiction|].
    rewrite Nat.min_r by lia. now apply slice1_tab.
Qed.

Lemma dynamic_slice4_tab4_clamped {A} n0 n1 n2 n3
      (g : nat -> nat -> nat -> nat -> A) s2 s3 m2 m3 :
  0 < m2 -> 0 < m3 ->
  n2 = 1 \/ s2 + m2 <= n2 -> n3 = 1 \/ s3 + m3 <= n3 ->
  dynamic_slice4 (tab4 n0 n1 n2 n3 g) (0, 0, s2, s3)
                 (n0, n1, Nat.min n2 m2, Nat.min n3 m3) =
  tab4 n0 n1 (Nat.min n2 m2) (Nat.min n3 m3)
       (fun i j k l => g i j (if n2 =? 1 then 0 else s2 + k)
                         (if n3 =? 1 then 0 else s3 + l)).
Proof.
  intros Hm2 Hm3 H2 H3. unfold dynamic_slice4, tab4.
  rewrite slice1_tab by lia. rewrite map_tab. apply tab_ext; intros i _.
  rewrite slice1_tab by lia. rewrite map_tab. apply tab_ext; intros j _.
  rewrite slice1_tab_clamped by assumption.
  rewrite map_tab. apply tab_ext; intros k _.
  now rewrite slice1_tab_clamped.
Qed.

Lemma bias_slice_tab4 {A} (b : T4 A) d nb nh n2 n3 qcs kcs qo ko :
  has_shape nb nh n2 n3 b = true ->
  0 < nb -> 0 < nh -> 0 < qcs -> 0 < kcs ->
  n2 = 1 \/ qo + qcs <= n2 ->
  n3 = 1 \/ ko + kcs <= n3 ->
  dynamic_slice4 b (0, 0, qo, ko)
    (dim0 b, dim1 b, Nat.min (dim2 b) qcs, Nat.min (dim3 b) kcs) =
  tab4 nb nh (Nat.min n2 qcs) (Nat.min n3 kcs)
       (fun i j q k => get4 d b i j (if n2 =? 1 then 0 else qo + q)
                         (if n3 =? 1 then 0 else ko + k)).
Proof.
  intros Hs Hb Hh Hq Hk H2 H3.
  pose proof (shape_as_tab4 _ _ _ _ _ d Hs) as E.
  set (g := get4 d b) in *. clearbody g. subst b.
  assert (Hn2 : 0 < n2) by lia.
  pose proof (dims_tab4 n3 g Hb Hh Hn2) as Hd.
  unfold shape4 in Hd. injection Hd as -> -> -> ->.
  now apply dynamic_slice4_tab4_clamped.
Qed.

(** X12.  Without the causal flag and without dropout, the tile of a
    block pair is the sub-rectangle of the bias that starts at the
    block's offsets; an axis of the bias that has length 1 is not cut:
    its only entry serves every block. *)
Theorem bias_tile_entries {F : Type} {D : DType F}
    (query_chunk_size key_chunk_size : nat) (bias : T4 F)
    (attn_dropout : option (T4 bool)) (attn_pdrop : F)
    (query_chunk_idx key_chunk_idx : nat) (nb nh n2 n3 : nat) :
  has_shape nb nh n2 n3 bias = true ->
  0 < nb -> 0 < nh -> 0 < query_chunk_size -> 0 < key_chunk_size ->
  n2 = 1 \/ query_chunk_idx * query_chunk_size + query_chunk_size <= n2 ->
  n3 = 1 \/ key_chunk_idx * key_chunk_size + key_chunk_size <= n3 ->
  _chunk_attention_bias query_chunk_size key_chunk_size (Some bias) true
    attn_dropout attn_pdrop false query_chunk_idx key_chunk_idx =
  tab4 nb nh (Nat.min n2 query_chunk_size) (Nat.min n3 key_chunk_size)
       (fun i j q k =>
          get4 zero bias i j
               (if n2 =? 1 then 0 else query_chunk_idx * query_chunk_size + q)
               (if n3 =? 1 then 0 else key_chunk_idx * key_chunk_size + k)).
Proof.
  intros Hs Hb Hh Hq Hk H2 H3.
  unfold _chunk_attention_bias. cbn [negb andb].
  now apply bias_slice_tab4.
Qed.

Lemma bias_tile_entries_witness :
  _chunk_attention_bias (D := ideal) 1 1 (Some [[[[Fin 1]; [Fin 2]]]]) true
    None (Fin 0) false 1 3 =
  tab4 1 1 (Nat.min 2 1) (Nat.min 1 1)
       (fun i j q k =>
          get4 zero [[[[Fin 1]; [Fin 2]]]] i j
               (if 2 =? 1 then 0 else 1 * 1 + q)
               (if 1 =? 1 then 0 else 3 * 1 + k)).
Proof.
  apply (@bias_tile_entries xreal ideal 1 1 [[[[Fin 1]; [Fin 2]]]] None
           (Fin 0) 1 3 1 1 2 1);
    first [reflexivity | lia].
Defined.

(** ** Causal reductions and later key blocks *)

Lemma firstn_seq_min k start len :
  firstn k (seq start len) = seq start (Nat.min k len).
Proof.
  revert start len. induction k as [|k IH]; intros start [|len];
    try reflexivity.
  simpl. now rewrite IH.
Qed.

Section CausalBlocks.
Context {F : Type} {D : DType F}.
Variable _chunk_bias_fn : nat -> nat -> T4 F.
Variable query_chunk : T4 F.
Variable query_chunk_idx : nat.

Lemma scan_first_blocks (key value : list (T4 F)) carry :
  fst (scan (skip_upper_half _chunk_bias_fn true query_chunk query_chunk_idx)
            carry (kv_blocks key value)) =
  fst (scan (skip_upper_half _chunk_bias_fn true query_chunk query_chunk_idx)
            carry (firstn (S query_chunk_idx) (kv_blocks key value))).
Proof.
  rewrite <- (firstn_skipn (S query_chunk_idx) (kv_blocks key value)) at 1.
  rewrite scan_app_fst. apply scan_skipped.
  apply Forall_forall. intros [[kc vc] ki] Hin. cbn [snd].
  unfold kv_blocks in Hin. rewrite skipn_combine, skipn_seq in Hin.
  apply in_combine_r in Hin. apply in_seq in Hin. lia.
Qed.

(** X13.  Under causal attention the reduction of a query block reads
    the key and value blocks up to its own index only: two lists of key
    and value blocks that agree on the first [query_chunk_idx + 1]
    blocks give the same block output. *)
Theorem causal_reduction_ignores_later_blocks
    (batch query_chunk_size num_heads dim_per_head : nat)
    (key value key' value' : list (T4 F)) :
  length key = length value ->
  length key' = length value' ->
  firstn (S query_chunk_idx) key = firstn (S query_chunk_idx) key' ->
  firstn (S query_chunk_idx) value = firstn (S query_chunk_idx) value' ->
  _query_chunk_attention _chunk_bias_fn true batch query_chunk_size
    num_heads dim_per_head key value query_chunk query_chunk_idx =
  _query_chunk_attention _chunk_bias_fn true batch query_chunk_size
    num_heads dim_per_head key' value' query_chunk query_chunk_idx.
Proof.
  intros Hl Hl' Hk Hv. unfold _query_chunk_attention.
  pose proof (scan_first_blocks key value
                (init_carry batch query_chunk_size num_heads dim_per_head))
    as E.
  pose proof (scan_first_blocks key' value'
                (init_carry batch query_chunk_size num_heads dim_per_head))
    as E'.
  assert (Hf : firstn (S query_chunk_idx) (kv_blocks key value) =
               firstn (S query_chunk_idx) (kv_blocks key' value')).
  { unfold kv_blocks. rewrite !combine_firstn, !firstn_seq_min, Hk, Hv.
    do 2 f_equal.
    apply (f_equal (@length _)) in Hk. rewrite !length_firstn in Hk.
    exact Hk. }
  rewrite Hf in E. rewrite <- E' in E.
  destruct (scan _ _ (kv_blocks key value)) as [c ys].
  destruct (scan _ _ (kv_blocks key' value')) as [c' ys'].
  cbn [fst] in E. now subst c'.
Qed.
End CausalBlocks.

Lemma causal_reduction_ignores_later_blocks_witness :
  _query_chunk_attention (D := ideal) Example3.no_bias true 1 1 1 1
    [Example3.key_chunk; Example3.key_chunk]
    [Example3.value_chunk; Example3.value_chunk] Example3.query_chunk 0 =
  _query_chunk_attention Example3.no_bias true 1 1 1 1
    [Example3.key_chunk; Example3.query_chunk]
    [Example3.value_chunk; Example3.key_chunk] Example3.query_chunk 0.
Proof.
  apply (@causal_reduction_ignores_later_blocks xreal ideal
           Example3.no_bias Example3.query_chunk 0 1 1 1 1);
    reflexivity.
Defined.

(** ** The shape of the output *)

Section OutputShape.
Context {F : Type} {D : DType F}.

Lemma broadcasts_tab4 n0 n1 n2 n3 d0 d1 d2 d3
      (g : nat -> nat -> nat -> nat -> F) :
  (d0 = 1 \/ d0 = n0) -> (d1 = 1 \/ d1 = n1) ->
  (d2 = 1 \/ d2 = n2) -> (d3 = 1 \/ d3 = n3) ->
  broadcasts_to n0 n1 n2 n3 (tab4 d0 d1 d2 d3 g).
Proof.
  intros. exists d0, d1, d2, d3. split; [apply has_shape_tab4|tauto].
Qed.

Lemma bdim_cases n d e :
  (d = 1 \/ d = n) -> (e = 1 \/ e = n) ->
  compat d e /\ (bdim d e = 1 \/ bdim d e = n).
Proof.
  unfold compat, bdim. intros [-> | ->] [-> | ->];
    destruct (Nat.eqb_spec n 1); cbn; auto.
Qed.

Lemma broadcasts_add n0 n1 n2 n3 (t u : T4 F) :
  broadcasts_to n0 n1 n2 n3 t -> broadcasts_to n0 n1 n2 n3 u ->
  broadcasts_to n0 n1 n2 n3 (add4 t u).
Proof.
  intros (d0 & d1 & d2 & d3 & Ht & A0 & A1 & A2 & A3)
         (e0 & e1 & e2 & e3 & Hu & B0 & B1 & B2 & B3).
  rewrite (shape_as_tab4 _ _ _ _ _ zero Ht), (shape_as_tab4 _ _ _ _ _ zero Hu).
  destruct (bdim_cases A0 B0) as [C0 E0].
  destruct (bdim_cases A1 B1) as [C1 E1].
  destruct (bdim_cases A2 B2) as [C2 E2].
  destruct (bdim_cases A3 B3) as [C3 E3].
  unfold add4. rewrite bop4_tab4 by assumption.
  now apply broadcasts_tab4.
Qed.

Lemma min_block n c : 0 < c -> 0 < n -> Nat.min (n * c) c = c.
Proof. intros. apply Nat.min_r. nia. Qed.

Lemma chunk_bias_broadcasts
    (query_chunk_size key_chunk_size : nat) (bias : option (T4 F))
    (deterministic : bool) (attn_dropout : option (T4 bool))
    (attn_pdrop : F) (causal : bool) (qi ki nb nh nq nk : nat) :
  0 < nb -> 0 < nh -> 0 < query_chunk_size -> 0 < key_chunk_size ->
  qi < nq -> ki < nk ->
  match bias with
  | None => True
  | Some b =>
      broadcasts_to nb nh (nq * query_chunk_size) (nk * key_chunk_size) b
  end ->
  match attn_dropout with
  | None => True
  | Some m =>
      has_shape nb nh (nq * query_chunk_size) (nk * key_chunk_size) m = true
  end ->
  broadcasts_to nb nh query_chunk_size key_chunk_size
    (_chunk_attention_bias query_chunk_size key_chunk_size bias
       deterministic attn_dropout attn_pdrop causal qi ki).
Proof.
  intros Hb Hh Hq Hk Hqi Hki Hbias Hdrop. unfold _chunk_attention_bias.
  set (base := match bias with
               | Some b => dynamic_slice4 b _ _
               | None => full4 1 1 1 1 zero
               end).
  assert (Hbase : broadcasts_to nb nh query_chunk_size key_chunk_size base).
  { unfold base. destruct bias as [b|].
    - destruct Hbias as (d0 & d1 & d2 & d3 & Hs & A0 & A1 & A2 & A3).
      assert (0 < d0 /\ 0 < d1) as [P0 P1] by lia.
      assert (Q2 : d2 = 1 \/
                   qi * query_chunk_size + query_chunk_size <= d2)
        by (destruct A2 as [A2|A2]; [now left|right; nia]).
      assert (Q3 : d3 = 1 \/ ki * key_chunk_size + key_chunk_size <= d3)
        by (destruct A3 as [A3|A3]; [now left|right; nia]).
      rewrite (@bias_slice_tab4 _ b zero d0 d1 d2 d3 _ _ _ _
                 Hs P0 P1 Hq Hk Q2 Q3).
      apply broadcasts_tab4; try assumption.
      + destruct A2 as [-> | ->]; [left; lia|right].
        apply min_block; lia.
      + destruct A3 as [-> | ->]; [left; lia|right].
        apply min_block; lia.
    - change (full4 1 1 1 1 zero)
        with (tab4 1 1 1 1 (fun _ _ _ _ : nat => zero)).
      apply broadcasts_tab4; now left. }
  clearbody base.
  set (with_causal := if causal then add4 base _ else base).
  assert (Hc : broadcasts_to nb nh query_chunk_size key_chunk_size
                 with_causal).
  { unfold with_causal. destruct causal; [|assumption].
    apply broadcasts_add; [assumption|].
    rewrite causal_mask_value_entries.
    apply (broadcasts_tab4 (d0 := 1) (d1 := 1)
             (fun (_ _ : nat) q k =>
                mul (of_bool (qi * query_chunk_size + q <?
                              ki * key_chunk_size + k)) finfo_min));
      auto. }
  clearbody with_causal.
  destruct (negb deterministic && ltb zero attn_pdrop); [|assumption].
  destruct attn_dropout as [m|]; [|assumption].
  apply broadcasts_add; [assumption|].
  assert (Q2 : nq * query_chunk_size = 1 \/
               qi * query_chunk_size + query_chunk_size <=
               nq * query_chunk_size) by (right; nia).
  assert (Q3 : nk * key_chunk_size = 1 \/
               ki * key_chunk_size + key_chunk_size <=
               nk * key_chunk_size) by (right; nia).
  rewrite (@bias_slice_tab4 _ m false nb nh _ _ _ _ _ _
             Hdrop Hb Hh Hq Hk Q2 Q3).
  rewrite map4_tab4, !min_block by lia.
  apply broadcasts_tab4; now right.
Qed.
End OutputShape.

Section OutputShape2.
Context {F : Type} {D : DType F}.

Lemma scores_shape (fn : nat -> nat -> T4 F) (qc kc : T4 F)
      (qi ki nb nq nh nk nd : nat) :
  0 < nh ->
  has_shape nb nq nh nd qc = true ->
  has_shape nb nk nh nd kc = true ->
  broadcasts_to nb nh nq nk (fn qi ki) ->
  has_shape nb nq nh nk (scores fn qc qi kc ki) = true.
Proof.
  intros Hh Hq Hk (d0 & d1 & d2 & d3 & Ht & A0 & A1 & A2 & A3).
  unfold scores.
  rewrite (shape_as_tab4 _ _ _ _ _ zero Hq), (shape_as_tab4 _ _ _ _ _ zero Hk),
    (shape_as_tab4 _ _ _ _ _ zero Ht).
  rewrite einsum_qk_tab4, moveaxis_tab4 by lia.
  unfold add4. rewrite bop4_tab4 by (now apply compat_full).
  rewrite !bdim_full by assumption. apply has_shape_tab4.
Qed.

Lemma summarize_keeps_shapes (fn : nat -> nat -> T4 F) (qc : T4 F) qi
      (carry : Carry) (kc vc : T4 F) ki (nb nq nh nk nd : nat) :
  0 < nk ->
  has_shape nb nq nh nk (scores fn qc qi kc ki) = true ->
  has_shape nb nk nh nd vc = true ->
  carry_shaped nb nq nh nd carry ->
  carry_shaped nb nq nh nd (fst (summarize_chunk fn qc qi carry (kc, vc, ki))).
Proof.
  intros Hk Hs Hv (Hn & Hd & Hm). unfold summarize_chunk. cbv zeta.
  set (sc := scores fn qc qi kc ki) in *.
  rewrite (shape_as_tab4 _ _ _ _ _ zero Hs), (shape_as_tab4 _ _ _ _ _ zero Hv),
    (shape_as_tab4 _ _ _ _ _ zero Hn), (shape_as_tab4 _ _ _ _ _ zero Hd),
    (shape_as_tab4 _ _ _ _ _ zero Hm).
  destruct (summarize_on_entries nb nq nh nd nd (get4 zero sc)
              (get4 zero (max_so_far carry)) (get4 zero (numerator carry))
              (get4 zero (denominator carry)) (get4 zero vc) Hk)
    as (E1 & E2 & E3).
  unfold carry_shaped. cbn [fst numerator denominator max_so_far].
  rewrite E2, E3, E1. repeat split; apply has_shape_tab4.
Qed.

Lemma scan_keeps_shapes (fn : nat -> nat -> T4 F) (causal : bool)
      (qc : T4 F) qi (nb nq nh nk nd : nat)
      (blocks : list (T4 F * T4 F * nat)) carry :
  0 < nk ->
  Forall (fun blk =>
            has_shape nb nq nh nk
              (scores fn qc qi (fst (fst blk)) (snd blk)) = true /\
            has_shape nb nk nh nd (snd (fst blk)) = true) blocks ->
  carry_shaped nb nq nh nd carry ->
  carry_shaped nb nq nh nd
    (fst (scan (skip_upper_half fn causal qc qi) carry blocks)).
Proof.
  intros Hk Hblocks. revert carry.
  induction Hblocks as [|[[kc vc] ki] blocks [Hs Hv] _ IH]; intros carry Hc;
    [exact Hc|].
  cbn [scan]. cbn [fst snd] in Hs, Hv.
  destruct (skip_upper_half fn causal qc qi carry (kc, vc, ki))
    as [c1 u] eqn:E.
  assert (Hc1 : carry_shaped nb nq nh nd c1).
  { unfold skip_upper_half in E. destruct (skip_block causal qi ki).
    - injection E as <- _. exact Hc.
    - pose proof (@summarize_keeps_shapes fn qc qi carry kc vc ki
                    nb nq nh nk nd Hk Hs Hv Hc) as H.
      rewrite E in H. exact H. }
  specialize (IH c1 Hc1).
  destruct (scan _ c1 blocks) as [c2 ys]. exact IH.
Qed.

Lemma init_carry_shaped nb nq nh nd :
  carry_shaped nb nq nh nd (init_carry nb nq nh nd).
Proof.
  unfold carry_shaped, init_carry. cbn [numerator denominator max_so_far].
  rewrite map4_full4. repeat split; apply has_shape_full4.
Qed.

Lemma query_chunk_attention_shape (fn : nat -> nat -> T4 F) (causal : bool)
      (nb nq nh nk nd : nat) (key value : list (T4 F)) (qc : T4 F) qi :
  0 < nk ->
  Forall (fun blk =>
            has_shape nb nq nh nk
              (scores fn qc qi (fst (fst blk)) (snd blk)) = true /\
            has_shape nb nk nh nd (snd (fst blk)) = true)
         (kv_blocks key value) ->
  has_shape nb nq nh nd
    (_query_chunk_attention fn causal nb nq nh nd key value qc qi) = true.
Proof.
  intros Hk Hblocks. unfold _query_chunk_attention.
  pose proof (@scan_keeps_shapes fn causal qc qi nb nq nh nk nd _ _
                Hk Hblocks (init_carry_shaped nb nq nh nd)) as (Hn & Hd & _).
  destruct (scan _ _ _) as [c ys]. cbn [fst] in Hn, Hd.
  rewrite (shape_as_tab4 _ _ _ _ _ zero Hn), (shape_as_tab4 _ _ _ _ _ zero Hd).
  unfold div4. rewrite bop4_tab4 by auto with shapes.
  rewrite !bdim_same. apply has_shape_tab4.
Qed.
End OutputShape2.

Lemma seq_as_tab n : seq 0 n = tab n (fun i => i).
Proof. unfold tab. now rewrite map_id. Qed.

Lemma Forall_tab {A} (P : A -> Prop) n (g : nat -> A) :
  (forall i, i < n -> P (g i)) -> Forall P (tab n g).
Proof.
  intros H. apply Forall_forall. intros x Hx.
  apply in_map_iff in Hx as (i & <- & Hi). apply in_seq in Hi.
  apply H. lia.
Qed.

Lemma rearrange_merge_tab4 {A} nb nq c nh nd
      (o : nat -> nat -> nat -> nat -> nat -> A) :
  0 < c ->
  rearrange_merge nb (tab nq (fun ni => tab4 nb c nh nd (o ni))) =
  tab4 nb (nq * c) nh nd (fun b i h d => o (i / c) b (i mod c) h d).
Proof.
  intros Hc. unfold rearrange_merge, tab4. cbv beta. to_tab.
  apply tab_ext. intros b Hb. rewrite map_tab.
  rewrite <- (concat_tab_tab nq c
                (fun i => tab nh (fun h => tab nd (fun d =>
                            o (i / c) b (i mod c) h d)))).
  f_equal. apply tab_ext. intros ni _.
  rewrite nth_tab by assumption. apply tab_ext. intros ci Hci.
  replace (ni * c + ci) with (ci + ni * c) by lia.
  rewrite Nat.div_add, Nat.Div0.mod_add by lia.
  rewrite Nat.div_small, Nat.mod_small by assumption. reflexivity.
Qed.

Lemma rearrange_merge_shape {A} (d : A) nb nq c nh nd (o : nat -> T4 A) :
  0 < c ->
  (forall ni, ni < nq -> has_shape nb c nh nd (o ni) = true) ->
  has_shape nb (nq * c) nh nd (rearrange_merge nb (tab nq o)) = true.
Proof.
  intros Hc Ho.
  rewrite (@tab_ext _ nq o (fun ni => tab4 nb c nh nd (get4 d (o ni))))
    by (intros ni Hni; apply shape_as_tab4; now apply Ho).
  rewrite (rearrange_merge_tab4 nb nq nh nd (fun ni => get4 d (o ni)))
    by assumption.
  apply has_shape_tab4.
Qed.

(** X14.  On rectangular operands whose sequence lengths are multiples
    of the chunk sizes, with keys and values of the query's batch, head
    and feature extents and a broadcastable bias, the entry point
    returns an array of the shape of the query, whatever the values,
    the causal flag and the dropout setting. *)
Theorem blockwise_attn_output_shape {F : Type} {D : DType F}
    (query key value bias : T4 F) (deterministic : bool)
    (dropout_rng : T4 bool) (attn_pdrop : F) (causal : bool)
    (query_chunk_size key_chunk_size nb nh nd nq nk : nat) :
  0 < nb -> 0 < nh -> 0 < query_chunk_size -> 0 < key_chunk_size ->
  0 < nq -> 0 < nk ->
  has_shape nb (nq * query_chunk_size) nh nd query = true ->
  has_shape nb (nk * key_chunk_size) nh nd key = true ->
  has_shape nb (nk * key_chunk_size) nh nd value = true ->
  broadcasts_to nb nh (nq * query_chunk_size) (nk * key_chunk_size) bias ->
  has_shape nb nh (nq * query_chunk_size) (nk * key_chunk_size) dropout_rng
    = true ->
  exists out,
    blockwise_attn query key value (Some bias) deterministic dropout_rng
      attn_pdrop causal query_chunk_size key_chunk_size = inr out /\
    has_shape nb (nq * query_chunk_size) nh nd out = true.
Proof.
  intros Hb Hh Hq Hk Hnq Hnk Hsq Hsk Hsv Hbias Hrng.
  unfold blockwise_attn.
  assert (HLq : 0 < nq * query_chunk_size) by nia.
  assert (HLk : 0 < nk * key_chunk_size) by nia.
  pose proof (shape_as_tab4 _ _ _ _ _ zero Hsq) as Eq.
  pose proof (shape_as_tab4 _ _ _ _ _ zero Hsk) as Ek.
  pose proof (shape_as_tab4 _ _ _ _ _ zero Hsv) as Ev.
  set (gq0 := get4 zero query) in *.
  set (gk := get4 zero key) in *. set (gv := get4 zero value) in *.
  clearbody gk gv gq0. subst query key value.
  pose proof (dims_tab4 nd gq0 Hb HLq Hh) as Hd0.
  unfold shape4 in Hd0. injection Hd0 as _ _ _ ->.
  rewrite map4_tab4.
  set (gq := fun i j k l => div (gq0 i j k l) _).
  pose proof (dims_tab4 nd gq Hb HLq Hh) as Hdq.
  unfold shape4 in Hdq. injection Hdq as -> -> -> ->.
  clearbody gq.
  pose proof (dims_tab4 nd gk Hb HLk Hh) as Hdk.
  unfold shape4 in Hdk. injection Hdk as _ -> _ _.
  unfold tab4 at 1 2 3.
  rewrite !rearrange_split_tab by assumption. cbn [bind].
  destruct Hbias as (d0 & d1 & d2 & d3 & Hsb & A0 & A1 & A2 & A3).
  assert (Hcheck :
    forallb (fun p => (fst p =? 1) || (fst p =? snd p))
      (combine [dim0 bias; dim1 bias; dim2 bias; dim3 bias]
               [nb; nh; nq * query_chunk_size; nk * key_chunk_size]) = true).
  { pose proof (shape_as_tab4 _ _ _ _ _ zero Hsb) as Eb.
    rewrite Eb.
    assert (0 < d0 /\ 0 < d1 /\ 0 < d2) as (P0 & P1 & P2) by lia.
    pose proof (dims_tab4 d3 (get4 zero bias) P0 P1 P2) as Hdb.
    unfold shape4 in Hdb. injection Hdb as -> -> -> ->.
    cbn [combine forallb fst snd].
    rewrite !andb_true_iff, !orb_true_iff, !Nat.eqb_eq. tauto. }
  rewrite Hcheck, tab_same_length, scan_stateless.
  eexists. split; [reflexivity|].
  rewrite tab_length, seq_as_tab, combine_tab, map_tab. cbn [fst snd].
  set (fn := _chunk_attention_bias _ _ _ _ _ _ _).
  set (keys := tab nk _). set (values := tab nk _).
  apply (rearrange_merge_shape zero); [assumption|].
  intros ni Hni.
  apply (@query_chunk_attention_shape F D fn causal nb query_chunk_size
           nh key_chunk_size nd); [assumption|].
  unfold kv_blocks, keys, values.
  rewrite tab_length, seq_as_tab, !combine_tab.
  apply Forall_tab. intros ki Hki. cbn [fst snd]. split.
  - apply (@scores_shape F D fn _ _ ni ki nb query_chunk_size nh
             key_chunk_size nd); try assumption.
    + apply (has_shape_tab4 nb query_chunk_size nh nd
               (fun b ci h d => gq b (ci * nq + ni) h d)).
    + apply (has_shape_tab4 nb key_chunk_size nh nd
               (fun b ci h d => gk b (ci * nk + ki) h d)).
    + unfold fn.
      apply (@chunk_bias_broadcasts F D query_chunk_size key_chunk_size
               (Some bias) deterministic _ attn_pdrop causal ni ki
               nb nh nq nk); try assumption.
      * exists d0, d1, d2, d3. tauto.
      * destruct (negb deterministic && ltb zero attn_pdrop);
          [assumption|exact I].
  - apply (has_shape_tab4 nb key_chunk_size nh nd
             (fun b ci h d => gv b (ci * nk + ki) h d)).
Qed.

Lemma blockwise_attn_output_shape_witness :
  exists out,
    blockwise_attn (D := ideal) Example2.query Example2.key Example2.value
      (Some Example2.bias) true [[[[true; true; true; true];
                                   [true; true; true; true];
                                   [true; true; true; true];
                                   [true; true; true; true]]]]
      (Fin 0) true 2 2 = inr out /\
    has_shape 1 (2 * 2) 1 1 out = true.
Proof.
  apply (@blockwise_attn_output_shape xreal ideal Example2.query
           Example2.key Example2.value Example2.bias true _ (Fin 0) true
           2 2 1 1 1 2 2);
    try lia; try reflexivity.
  exists 1, 1, 1, 1. split; [reflexivity|]. tauto.
Defined.

(** ** One block of each: the direct computation *)

Lemma repeat_as_tab {A} (x : A) n : repeat x n = tab n (fun _ => x).
Proof.
  induction n as [|n IH]; [reflexivity|]. rewrite tab_S. simpl. now rewrite IH.
Qed.

Lemma full4_as_tab4 {A} n0 n1 n2 n3 (x : A) :
  full4 n0 n1 n2 n3 x = tab4 n0 n1 n2 n3 (fun _ _ _ _ => x).
Proof. unfold full4, tab4. now rewrite !repeat_as_tab. Qed.

Lemma rearrange_split_whole {X} c nb (r : nat -> nat -> list X) :
  0 < c -> 0 < nb ->
  rearrange_split c (tab nb (fun b => tab c (r b))) =
  inr [tab nb (fun b => tab c (r b))].
Proof.
  intros Hc Hb.
  pose proof (@rearrange_split_tab X c 1 nb
                (fun b p => if p <? c then r b p else []) Hc Hb) as E.
  cbv beta in E.
  assert (Hin : tab nb (fun b => tab (1 * c)
                   (fun p => if p <? c then r b p else [])) =
                tab nb (fun b => tab c (r b))).
  { apply tab_ext. intros b _. rewrite Nat.mul_1_l.
    apply tab_ext. intros p Hp. apply Nat.ltb_lt in Hp. now rewrite Hp. }
  rewrite Hin in E. rewrite E. f_equal.
  change (tab 1 ?g) with [g 0]. f_equal.
  apply tab_ext. intros b _. apply tab_ext. intros p Hp.
  replace (p * 1 + 0) with p by lia.
  apply Nat.ltb_lt in Hp. now rewrite Hp.
Qed.

Lemma rearrange_merge_single {A} nb n1 n2 n3
      (g : nat -> nat -> nat -> nat -> A) :
  rearrange_merge nb [tab4 nb n1 n2 n3 g] = tab4 nb n1 n2 n3 g.
Proof.
  unfold rearrange_merge, tab4. to_tab. apply tab_ext. intros b Hb.
  cbn [map concat]. rewrite app_nil_r. now rewrite nth_tab.
Qed.

Section SingleBlock.
Import Ideal IdealFacts.
Local Open Scope R_scope.

Lemma fold_xadd_nan l : fold_left xadd l NaN = NaN.
Proof. induction l as [|x l IH]; [reflexivity|exact IH]. Qed.

Lemma sum_nan n (g : nat -> xreal) :
  (0 < n)%nat -> (forall k, (k < n)%nat -> g k = NaN) ->
  sum (D := ideal) (tab n g) = NaN.
Proof.
  intros Hn Hg. destruct n as [|n]; [lia|].
  unfold sum. rewrite tab_S. cbn [fold_left add zero ideal].
  rewrite Hg by lia. cbn [xadd]. apply fold_xadd_nan.
Qed.

Lemma xmax_ninf a b : xmax a b = NInf -> a = NInf /\ b = NInf.
Proof. destruct a, b; cbn; intros H; try discriminate; auto. Qed.

Lemma fold_xmax_ninf l x :
  fold_left xmax l x = NInf -> x = NInf /\ Forall (fun y => y = NInf) l.
Proof.
  revert x. induction l as [|y l IH]; intros x H; [auto|].
  cbn [fold_left] in H. apply IH in H as [H1 H2].
  apply xmax_ninf in H1 as [-> ->]. auto.
Qed.

Lemma max_list_ninf n (g : nat -> xreal) :
  (0 < n)%nat -> max_list (D := ideal) (tab n g) = NInf ->
  forall k, (k < n)%nat -> g k = NInf.
Proof.
  intros Hn H k Hk. destruct n as [|n]; [lia|].
  rewrite tab_S in H. cbn [max_list maximum ideal] in H.
  apply fold_xmax_ninf in H as [H0 Hr].
  destruct k as [|k]; [exact H0|].
  rewrite Forall_forall in Hr. apply Hr.
  apply in_map_iff. exists k. split; [reflexivity|apply in_seq; lia].
Qed.

Lemma absorb_zero_carry c x :
  c = Fin 0 \/ x = NaN -> xadd (xmul (Fin 0) c) x = x.
Proof.
  intros [-> | ->].
  - cbn [xmul]. destruct x; try reflexivity. cbn. f_equal. lra.
  - now destruct (xmul (Fin 0) c).
Qed.

(** From the initial carry, one update gives the weighted sums
    themselves. *)
Lemma first_update (sc gv : nat -> nat -> nat -> nat -> xreal)
      (nk : nat) (b q h f : nat) :
  (0 < nk)%nat ->
  let m := max_list (D := ideal) (tab nk (sc b q h)) in
  let w := fun k => xexp (xsub (sc b q h k) m) in
  numerator_update (D := ideal) sc (fun _ _ _ _ => NInf)
    (fun _ _ _ _ => Fin 0) gv nk b q h f =
  sum (D := ideal) (tab nk (fun k => xmul (w k) (gv b k h f))) /\
  denominator_update (D := ideal) sc (fun _ _ _ _ => NInf)
    (fun _ _ _ _ => Fin 0) nk b q h f =
  sum (D := ideal) (tab nk w).
Proof.
  intros Hk m w.
  unfold numerator_update, denominator_update, correction, exp_weights,
    new_max.
  cbn [add mul sub maximum fexp ideal]. fold m.
  assert (Hm : xmax NInf m = m) by now destruct m.
  rewrite Hm. fold w.
  assert (Hcases : xexp (xsub NInf m) = Fin 0 \/
                   forall k, (k < nk)%nat -> w k = NaN).
  { subst w. cbv beta. subst m.
    destruct (max_list (D := ideal) (tab nk (sc b q h))) as [r| | | ] eqn:Em.
    - left. reflexivity.
    - left. reflexivity.
    - right. intros k Hk'.
      rewrite (@max_list_ninf nk (sc b q h) Hk Em k Hk'). reflexivity.
    - right. intros k Hk'. now destruct (sc b q h k). }
  split; apply absorb_zero_carry.
  - destruct Hcases as [H|H]; [now left|right].
    apply sum_nan; [assumption|]. intros k Hk'. now rewrite H.
  - destruct Hcases as [H|H]; [now left|right].
    now apply sum_nan.
Qed.
End SingleBlock.

Lemma bias_slice_whole {A} (b : T4 A) (d : A) nb nh lq lk qo ko :
  0 < nb -> 0 < nh -> 0 < lq -> 0 < lk -> qo = 0 -> ko = 0 ->
  broadcasts_to nb nh lq lk b ->
  dynamic_slice4 b (0, 0, qo, ko)
    (dim0 b, dim1 b, Nat.min (dim2 b) lq, Nat.min (dim3 b) lk) = b.
Proof.
  intros Hb Hh Hq Hk -> -> (d0 & d1 & d2 & d3 & Hs & A0 & A1 & A2 & A3).
  assert (0 < d0 /\ 0 < d1) as [P0 P1] by lia.
  assert (Q2 : d2 = 1 \/ 0 + lq <= d2) by lia.
  assert (Q3 : d3 = 1 \/ 0 + lk <= d3) by lia.
  rewrite (@bias_slice_tab4 _ b d d0 d1 d2 d3 lq lk 0 0 Hs P0 P1 Hq Hk Q2 Q3).
  transitivity (tab4 d0 d1 d2 d3 (get4 d b));
    [|symmetry; now apply shape_as_tab4].
  replace (Nat.min d2 lq) with d2 by lia.
  replace (Nat.min d3 lk) with d3 by lia.
  apply tab4_ext. intros i j q k _ _ Hq' Hk'. f_equal.
  - destruct (Nat.eqb_spec d2 1); lia.
  - destruct (Nat.eqb_spec d3 1); lia.
Qed.

Section SingleBlockRun.
Import Ideal IdealFacts.
Local Open Scope R_scope.

Lemma single_block_attention (fn : nat -> nat -> T4 xreal) (causal : bool)
      (nb nq nh nk nd : nat) (qc kc vc : T4 xreal) :
  (0 < nk)%nat ->
  has_shape nb nq nh nk (scores fn qc 0 kc 0) = true ->
  has_shape nb nk nh nd vc = true ->
  _query_chunk_attention fn causal nb nq nh nd [kc] [vc] qc 0 =
  (let s := scores fn qc 0 kc 0 in
   let w := exp4 (sub4 s (max_last s)) in
   div4 (einsum_wv w vc) (sum_last w)).
Proof.
  intros Hk Hs Hv. unfold _query_chunk_attention, kv_blocks.
  cbn [length seq combine scan skip_upper_half].
  assert (Hskip : skip_block causal 0 0 = false) by now destruct causal.
  rewrite Hskip. unfold summarize_chunk, init_carry. cbv zeta.
  cbn [numerator denominator max_so_far fst].
  set (s := scores fn qc 0 kc 0) in *.
  rewrite (shape_as_tab4 _ _ _ _ _ zero Hs), (shape_as_tab4 _ _ _ _ _ zero Hv).
  set (sc := get4 zero s). set (gv := get4 zero vc). clearbody sc gv.
  rewrite map4_full4, !full4_as_tab4.
  cbn [mul neg_inf one zero ideal]. rewrite xmul_ninf_pos by lra.
  destruct (summarize_on_entries nb nq nh nd nd sc (fun _ _ _ _ => NInf)
              (fun _ _ _ _ => Fin 0) (fun _ _ _ _ => Fin 0) gv Hk)
    as (_ & E2 & E3).
  cbn [zero ideal] in E2, E3. rewrite E2, E3.
  rewrite max_last_tab4. unfold sub4, exp4, div4.
  rewrite !bop4_tab4 by auto with shapes.
  rewrite !map4_tab4. rewrite ?bdim_same, ?bdim_1_r.
  rewrite einsum_wv_tab4, sum_last_tab4 by assumption.
  rewrite !bop4_tab4 by auto with shapes.
  rewrite ?bdim_same, ?bdim_1_r.
  apply tab4_ext. intros b q h f Hb Hq Hh Hf.
  rewrite !(bidx_same Hb), !(bidx_same Hq), !(bidx_same Hh), !(bidx_same Hf).
  destruct (@first_update sc gv nk b q h f Hk) as [N1 N2].
  rewrite N1, N2. cbn [bidx Nat.eqb].
  f_equal.
  - f_equal. apply tab_ext. intros k Hk'. now rewrite (bidx_same Hk').
  - f_equal. apply tab_ext. intros k Hk'. now rewrite (bidx_same Hk').
Qed.
End SingleBlockRun.

Lemma causal_mask_broadcasts {F} {D : DType F} nb nh q k offset :
  broadcasts_to nb nh q k [[causal_mask_value (F := F) q k offset]].
Proof.
  unfold causal_mask_value, iota. to_tab.
  exists 1, 1, q, k. split; [|tauto].
  rewrite map_tab.
  assert (E : tab q (fun i => map (fun ki =>
                mul (of_bool (Z.of_nat i + offset <? ki)%Z) finfo_min)
                (tab k Z.of_nat)) =
              tab q (fun i => tab k (fun j =>
                mul (of_bool (Z.of_nat i + offset <? Z.of_nat j)%Z)
                    finfo_min))).
  { apply tab_ext. intros i _. now rewrite map_tab. }
  rewrite E.
  apply (has_shape_tab4 1 1 q k
           (fun _ _ i j =>
              mul (of_bool (Z.of_nat i + offset <? Z.of_nat j)%Z) finfo_min)).
Qed.

(** X16.  With one query block and one key block (chunk sizes equal to
    the sequence lengths) and no dropout, the entry point returns
    exactly the direct softmax attention, in exact arithmetic and
    whatever the values, infinities and NaN included. *)
Theorem single_block_is_reference
    (query key value bias : T4 xreal) (dropout_rng : T4 bool)
    (attn_pdrop : xreal) (causal : bool) (nb nh nd q_len kv_len : nat) :
  0 < nb -> 0 < nh -> 0 < q_len -> 0 < kv_len ->
  has_shape nb q_len nh nd query = true ->
  has_shape nb kv_len nh nd key = true ->
  has_shape nb kv_len nh nd value = true ->
  broadcasts_to nb nh q_len kv_len bias ->
  blockwise_attn query key value (Some bias) true dropout_rng attn_pdrop
    causal q_len kv_len =
  inr (reference_attn query key value bias causal).
Proof.
  intros Hb Hh Hq Hk Hsq Hsk Hsv Hbias.
  unfold blockwise_attn, reference_attn.
  pose proof (shape_as_tab4 _ _ _ _ _ zero Hsq) as Eq.
  pose proof (shape_as_tab4 _ _ _ _ _ zero Hsk) as Ek.
  pose proof (shape_as_tab4 _ _ _ _ _ zero Hsv) as Ev.
  set (gq0 := get4 zero query) in *.
  set (gk := get4 zero key) in *. set (gv := get4 zero value) in *.
  clearbody gk gv gq0. subst query key value.
  pose proof (dims_tab4 nd gq0 Hb Hq Hh) as Hd0.
  unfold shape4 in Hd0. injection Hd0 as _ _ _ ->.
  rewrite map4_tab4.
  set (gq := fun i j k l => div (gq0 i j k l) _).
  pose proof (dims_tab4 nd gq Hb Hq Hh) as Hdq.
  unfold shape4 in Hdq. injection Hdq as -> -> -> ->.
  clearbody gq.
  pose proof (dims_tab4 nd gk Hb Hk Hh) as Hdk.
  unfold shape4 in Hdk. injection Hdk as _ -> _ _.
  assert (Hcheck :
    forallb (fun p => (fst p =? 1) || (fst p =? snd p))
      (combine [dim0 bias; dim1 bias; dim2 bias; dim3 bias]
               [nb; nh; q_len; kv_len]) = true).
  { destruct Hbias as (d0 & d1 & d2 & d3 & Hsb & A0 & A1 & A2 & A3).
    rewrite (shape_as_tab4 _ _ _ _ _ NaN Hsb).
    assert (0 < d0 /\ 0 < d1 /\ 0 < d2) as (P0 & P1 & P2) by lia.
    pose proof (dims_tab4 d3 (get4 NaN bias) P0 P1 P2) as Hdb.
    unfold shape4 in Hdb. injection Hdb as -> -> -> ->.
    cbn [combine forallb fst snd].
    rewrite !andb_true_iff, !orb_true_iff, !Nat.eqb_eq. tauto. }
  assert (Esplit : forall g : nat -> nat -> nat -> nat -> xreal,
            forall c, 0 < c ->
            rearrange_split c (tab4 nb c nh nd g) =
            inr [tab4 nb c nh nd g]).
  { intros g c Hc. unfold tab4.
    apply (@rearrange_split_whole _ c nb
             (fun b p => tab nh (fun h => tab nd (g b p h))) Hc Hb). }
  rewrite !Esplit by assumption. cbn [bind].
  rewrite Hcheck. cbn [length Nat.eqb]. rewrite scan_stateless.
  cbn [length seq combine map fst snd negb andb].
  set (fn := _chunk_attention_bias q_len kv_len (Some bias) true None
               attn_pdrop causal).
  assert (Etile : fn 0 0 =
            if causal
            then add4 bias [[causal_mask_value q_len kv_len 0]]
            else bias).
  { unfold fn, _chunk_attention_bias. cbn [negb andb Nat.mul].
    rewrite (@bias_slice_whole _ bias zero nb nh q_len kv_len 0 0)
      by (try assumption; reflexivity).
    reflexivity. }
  assert (Hscores : has_shape nb q_len nh kv_len
            (scores fn (tab4 nb q_len nh nd gq) 0
                    (tab4 nb kv_len nh nd gk) 0) = true).
  { apply (@scores_shape xreal ideal fn _ _ 0 0 nb q_len nh kv_len nd);
      try assumption; try apply has_shape_tab4.
    rewrite Etile. destruct causal; [|assumption].
    apply broadcasts_add; [assumption|].
    apply causal_mask_broadcasts. }
  rewrite (@single_block_attention fn causal nb q_len nh kv_len nd
             _ _ _ Hk Hscores (has_shape_tab4 nb kv_len nh nd gv)).
  assert (ES : scores fn (tab4 nb q_len nh nd gq) 0
                     (tab4 nb kv_len nh nd gk) 0 =
               add4 (einsum_qk (tab4 nb q_len nh nd gq)
                               (tab4 nb kv_len nh nd gk))
                    (moveaxis_1_2
                       (if causal
                        then add4 bias [[causal_mask_value q_len kv_len 0]]
                        else bias))).
  { unfold scores. now rewrite Etile. }
  cbv zeta. rewrite ES in *.
  set (s := add4 (einsum_qk _ _) _) in *. clearbody s.
  set (out := div4 _ _).
  assert (Hout : has_shape nb q_len nh nd out = true).
  { unfold out.
    rewrite (shape_as_tab4 _ _ _ _ _ NaN Hscores).
    rewrite max_last_tab4. unfold sub4, exp4, div4.
    rewrite !bop4_tab4 by auto with shapes. rewrite !map4_tab4.
    rewrite ?bdim_same, ?bdim_1_r.
    rewrite einsum_wv_tab4, sum_last_tab4 by assumption.
    rewrite !bop4_tab4 by auto with shapes.
    rewrite ?bdim_same, ?bdim_1_r. apply has_shape_tab4. }
  clearbody out.
  rewrite (shape_as_tab4 _ _ _ _ _ NaN Hout).
  now rewrite rearrange_merge_single.
Qed.

Lemma single_block_is_reference_witness :
  blockwise_attn (D := ideal) Example1.query Example1.key Example1.value
    (Some Example1.bias) true [] (Fin 0) false 4 2 =
  inr (reference_attn Example1.query Example1.key Example1.value
                      Example1.bias false).
Proof.
  apply (@single_block_is_reference Example1.query Example1.key
           Example1.value Example1.bias [] (Fin 0) false 1 1 1 4 2);
    try lia; try reflexivity.
  exists 1%nat, 1%nat, 1%nat, 1%nat. split; [reflexivity|]. tauto.
Defined.

(** ** Where the rows of the output come from *)

Lemma rearrange_split_blocks {A} (d : A) c n nb nh nd (t : T4 A) :
  0 < c -> 0 < nb ->
  has_shape nb (n * c) nh nd t = true ->
  rearrange_split c t = inr (tab n (block_of d n c nb nh nd t)).
Proof.
  intros Hc Hb Hs.
  rewrite (shape_as_tab4 _ _ _ _ _ d Hs) at 1. unfold tab4 at 1.
  rewrite rearrange_split_tab by assumption. reflexivity.
Qed.

(** X15.  On rectangular operands cut in whole blocks, with a
    broadcastable bias, row [i] of the output is row
    [i mod query_chunk_size] of the reduction of query block
    [i / query_chunk_size], and that block holds the rows
    [ci * nq + ni] of the scaled query: the output row [i] is the
    attention of query position
    [(i mod query_chunk_size) * nq + i / query_chunk_size]. *)
Theorem blockwise_attn_row_origin {F : Type} {D : DType F}
    (query key value bias : T4 F) (deterministic : bool)
    (dropout_rng : T4 bool) (attn_pdrop : F) (causal : bool)
    (query_chunk_size key_chunk_size nb nh nd nq nk : nat) :
  0 < nb -> 0 < nh -> 0 < query_chunk_size -> 0 < key_chunk_size ->
  0 < nq -> 0 < nk ->
  has_shape nb (nq * query_chunk_size) nh nd query = true ->
  has_shape nb (nk * key_chunk_size) nh nd key = true ->
  has_shape nb (nk * key_chunk_size) nh nd value = true ->
  broadcasts_to nb nh (nq * query_chunk_size) (nk * key_chunk_size) bias ->
  has_shape nb nh (nq * query_chunk_size) (nk * key_chunk_size) dropout_rng
    = true ->
  let scaled :=
    map4 (fun x => div x (fsqrt (of_nat (dim3 query)))) query in
  let qblock := block_of zero nq query_chunk_size nb nh nd scaled in
  let keys := tab nk (block_of zero nk key_chunk_size nb nh nd key) in
  let values := tab nk (block_of zero nk key_chunk_size nb nh nd value) in
  let fn :=
    _chunk_attention_bias query_chunk_size key_chunk_size (Some bias)
      deterministic
      (if negb deterministic && ltb zero attn_pdrop
       then Some dropout_rng else None)
      attn_pdrop causal in
  rearrange_split query_chunk_size scaled = inr (tab nq qblock) /\
  rearrange_split key_chunk_size key = inr keys /\
  rearrange_split key_chunk_size value = inr values /\
  exists out,
    blockwise_attn query key value (Some bias) deterministic dropout_rng
      attn_pdrop causal query_chunk_size key_chunk_size = inr out /\
    forall b i h d,
      b < nb -> i < nq * query_chunk_size -> h < nh -> d < nd ->
      get4 zero out b i h d =
      get4 zero
           (_query_chunk_attention fn causal nb query_chunk_size nh nd
              keys values (qblock (i / query_chunk_size))
              (i / query_chunk_size))
           b (i mod query_chunk_size) h d.
Proof.
  intros Hb Hh Hq Hk Hnq Hnk Hsq Hsk Hsv Hbias Hrng
         scaled qblock keys values fn.
  assert (HLq : 0 < nq * query_chunk_size) by nia.
  assert (HLk : 0 < nk * key_chunk_size) by nia.
  assert (Hss : has_shape nb (nq * query_chunk_size) nh nd scaled = true).
  { unfold scaled. generalize (fsqrt (of_nat (dim3 query))). intros sc.
    rewrite (shape_as_tab4 _ _ _ _ _ zero Hsq).
    rewrite map4_tab4. apply has_shape_tab4. }
  assert (Eq : rearrange_split query_chunk_size scaled = inr (tab nq qblock))
    by now apply rearrange_split_blocks.
  assert (Ek : rearrange_split key_chunk_size key = inr keys)
    by now apply rearrange_split_blocks.
  assert (Ev : rearrange_split key_chunk_size value = inr values)
    by now apply rearrange_split_blocks.
  split; [exact Eq|]. split; [exact Ek|]. split; [exact Ev|].
  unfold blockwise_attn. fold scaled. rewrite Eq, Ek, Ev. cbn [bind].
  assert (Hds : shape4 scaled = (nb, nq * query_chunk_size, nh, nd)).
  { rewrite (shape_as_tab4 _ _ _ _ _ zero Hss). now apply dims_tab4. }
  assert (Hdk : shape4 key = (nb, nk * key_chunk_size, nh, nd)).
  { rewrite (shape_as_tab4 _ _ _ _ _ zero Hsk). now apply dims_tab4. }
  unfold shape4 in Hds, Hdk.
  injection Hds as Hs0 Hs1 Hs2 Hs3. injection Hdk as _ Hk1 _ _.
  rewrite Hs0, Hs1, Hs2, Hs3, Hk1.
  destruct Hbias as (d0 & d1 & d2 & d3 & Hsb & A0 & A1 & A2 & A3).
  assert (Hcheck :
    forallb (fun p => (fst p =? 1) || (fst p =? snd p))
      (combine [dim0 bias; dim1 bias; dim2 bias; dim3 bias]
               [nb; nh; nq * query_chunk_size; nk * key_chunk_size]) = true).
  { assert (0 < d0 /\ 0 < d1 /\ 0 < d2) as (P0 & P1 & P2) by lia.
    assert (Hdb : shape4 bias = (d0, d1, d2, d3)).
    { rewrite (shape_as_tab4 _ _ _ _ _ zero Hsb). now apply dims_tab4. }
    unfold shape4 in Hdb. injection Hdb as B0 B1 B2 B3.
    rewrite B0, B1, B2, B3. cbn [combine forallb fst snd].
    rewrite !andb_true_iff, !orb_true_iff, !Nat.eqb_eq. tauto. }
  rewrite Hcheck.
  match goal with
  | |- context [length ?ks =? length ?vs] =>
      assert (Hcount : (length ks =? length vs) = true)
        by apply tab_same_length
  end.
  unfold T4 in Hcount. rewrite Hcount, scan_stateless. fold fn.
  eexists. split; [reflexivity|].
  rewrite tab_length, seq_as_tab, combine_tab, map_tab. cbn [fst snd].
  assert (Hout : forall ni, ni < nq ->
            has_shape nb query_chunk_size nh nd
              (_query_chunk_attention fn causal nb query_chunk_size nh nd
                 keys values (qblock ni) ni) = true).
  { intros ni Hni.
    apply (@query_chunk_attention_shape F D fn causal nb query_chunk_size
             nh key_chunk_size nd); [assumption|].
    unfold kv_blocks, keys, values.
    rewrite tab_length, seq_as_tab, !combine_tab.
    apply Forall_tab. intros ki Hki. cbn [fst snd]. split.
    - apply (@scores_shape F D fn _ _ ni ki nb query_chunk_size nh
               key_chunk_size nd); try assumption;
        try apply has_shape_tab4.
      unfold fn.
      apply (@chunk_bias_broadcasts F D query_chunk_size key_chunk_size
               (Some bias) deterministic _ attn_pdrop causal ni ki
               nb nh nq nk); try assumption.
      + exists d0, d1, d2, d3. tauto.
      + destruct (negb deterministic && ltb zero attn_pdrop);
          [assumption|exact I].
    - apply has_shape_tab4. }
  rewrite (@tab_ext _ nq _
             (fun ni => tab4 nb query_chunk_size nh nd
                (get4 zero (_query_chunk_attention fn causal nb
                   query_chunk_size nh nd keys values (qblock ni) ni))))
    by (intros ni Hni; apply shape_as_tab4; now apply Hout).
  rewrite (rearrange_merge_tab4 nb nq nh nd
             (fun ni => get4 zero (_query_chunk_attention fn causal nb
                query_chunk_size nh nd keys values (qblock ni) ni)))
    by assumption.
  intros b i h d Hb' Hi Hh' Hd'. now rewrite get4_tab4.
Qed.

Lemma blockwise_attn_row_origin_witness :
  exists out,
    blockwise_attn (D := ideal) Example1.query Example1.key Example1.value
      (Some Example1.bias) true
      [[[[true; true]; [true; true]; [true; true]; [true; true]]]]
      (Fin 0) false 2 2 = inr out.
Proof.
  destruct (@blockwise_attn_row_origin xreal ideal Example1.query
              Example1.key Example1.value Example1.bias true
              [[[[true; true]; [true; true]; [true; true]; [true; true]]]]
              (Fin 0) false 2 2 1 1 1 2 1)
    as (_ & _ & _ & out & E & _);
    try lia; try reflexivity.
  - exists 1, 1, 1, 1. split; [reflexivity|]. tauto.
  - exists out. exact E.
Defined.

(** ** The loss without a mask *)

Section LossNoMask.
Import Ideal IdealFacts.
Local Open Scope R_scope.

Lemma fold_xmax_fin xs a :
  fold_left xmax (map Fin xs) (Fin a) = Fin (fold_left Rmax xs a).
Proof.
  revert a. induction xs as [|x xs IH]; intros a; [reflexivity|].
  cbn [map fold_left xmax]. apply IH.
Qed.

Lemma fold_xadd_fin xs a :
  fold_left xadd (map Fin xs) (Fin a) = Fin (a + Rsum xs).
Proof.
  revert a. induction xs as [|x xs IH]; intros a.
  - simpl. f_equal. lra.
  - cbn [map fold_left xadd]. rewrite IH. f_equal. simpl. lra.
Qed.

Lemma Rsum_app l1 l2 : Rsum (l1 ++ l2) = Rsum l1 + Rsum l2.
Proof.
  induction l1 as [|x l1 IH]; simpl; [lra|].
  fold (Rsum (l1 ++ l2)). fold (Rsum l1). rewrite IH. lra.
Qed.

Lemma Rsum_concat ls : Rsum (concat ls) = Rsum (map Rsum ls).
Proof.
  induction ls as [|l ls IH]; [reflexivity|].
  cbn [concat map]. rewrite Rsum_app, IH. reflexivity.
Qed.

Lemma Rsum_nonpos l : Forall (fun p => p <= 0) l -> Rsum l <= 0.
Proof.
  induction 1 as [|x l Hx _ IH]; simpl; [lra|].
  fold (Rsum l). lra.
Qed.

Lemma Rsum_member y l :
  Forall (fun x => 0 < x) l -> In y l -> 0 < y <= Rsum l.
Proof.
  induction 1 as [|x l Hx Hl IH]; intros Hin; [destruct Hin|].
  assert (0 <= Rsum l).
  { clear -Hl. induction Hl as [|z l Hz _ IH]; simpl; [lra|].
    fold (Rsum l). lra. }
  simpl. fold (Rsum l). destruct Hin as [<-|Hin]; [lra|].
  specialize (IH Hin). lra.
Qed.

Lemma nth_map_fin tok (l : list R) :
  (tok < length l)%nat -> nth tok (map Fin l) NaN = Fin (nth tok l 0).
Proof.
  intros H. rewrite (nth_indep _ NaN (Fin 0)) by now rewrite length_map.
  apply map_nth.
Qed.

Lemma log_softmax_fin row tok :
  (tok < length row)%nat ->
  nth tok (log_softmax (D := ideal) (map Fin row)) NaN
  = Fin (log_prob row tok) /\ log_prob row tok <= 0.
Proof.
  intros Htok. unfold log_softmax, log_prob.
  assert (EM : max_list (D := ideal) (map Fin row) = Fin (Rmax_list row)).
  { destruct row as [|x xs]; [simpl in Htok; lia|].
    cbn [map max_list Rmax_list maximum ideal]. apply fold_xmax_fin. }
  rewrite EM. set (M := Rmax_list row).
  cbn [sub fexp flog ideal]. unfold sum. cbn [add zero ideal].
  rewrite (map_map Fin (fun x => xsub x (Fin M))).
  rewrite (map_ext (fun x => xsub (Fin x) (Fin M))
                   (fun x => Fin (x - M))) by reflexivity.
  rewrite <- (map_map (fun x => x - M) Fin).
  rewrite (map_map Fin xexp).
  rewrite (map_ext (fun x => xexp (Fin x))
                   (fun x => Fin (Rtrigo_def.exp x))) by reflexivity.
  rewrite <- (map_map Rtrigo_def.exp Fin).
  rewrite fold_xadd_fin, Rplus_0_l, (map_map (fun x => x - M)).
  set (Sx := Rsum (map (fun x => Rtrigo_def.exp (x - M)) row)).
  assert (Hall : Forall (fun x => 0 < x)
                   (map (fun x => Rtrigo_def.exp (x - M)) row)).
  { apply Forall_forall. intros y Hy.
    apply in_map_iff in Hy as (x & <- & _). apply exp_pos. }
  assert (Hin : In (Rtrigo_def.exp (nth tok row 0 - M))
                   (map (fun x => Rtrigo_def.exp (x - M)) row)).
  { apply in_map_iff. exists (nth tok row 0).
    split; [reflexivity|now apply nth_In]. }
  destruct (@Rsum_member _ _ Hall Hin) as [Hpos Hle]. fold Sx in Hle.
  assert (HS : 0 < Sx) by lra.
  unfold xlog. rewrite Rsign_pos by assumption.
  rewrite (map_map Fin (fun x => xsub x (Fin (ln Sx)))).
  rewrite (map_ext (fun x => xsub (Fin x) (Fin (ln Sx)))
                   (fun x => Fin (x - ln Sx))) by reflexivity.
  rewrite <- (map_map (fun x => x - ln Sx) Fin).
  rewrite nth_map_fin by now rewrite !length_map.
  rewrite (nth_indep _ 0 ((fun x => x - ln Sx) ((fun x => x - M) 0)))
    by now rewrite !length_map.
  rewrite (map_nth (fun x => x - ln Sx)), (map_nth (fun x => x - M)).
  split; [reflexivity|].
  assert (nth tok row 0 - M <= ln Sx); [|lra].
  rewrite <- (ln_exp (nth tok row 0 - M)).
  destruct Hle as [Hlt| ->]; [|lra].
  left. now apply ln_increasing.
Qed.

Lemma token_log_probs_fin rows tokens :
  Forall2 (fun row tok => (tok < length row)%nat) rows tokens ->
  zip_with (fun row tok => nth tok (log_softmax (D := ideal) row) NaN)
           (map (map Fin) rows) tokens
  = map Fin (zip_with log_prob rows tokens) /\
  Forall (fun p => p <= 0) (zip_with log_prob rows tokens) /\
  length (zip_with log_prob rows tokens) = length tokens.
Proof.
  induction 1 as [|row tok rows tokens Htok _ (IH1 & IH2 & IH3)].
  - repeat split. constructor.
  - destruct (@log_softmax_fin row tok Htok) as [E Hle].
    cbn [map zip_with combine length]. fold (zip_with log_prob rows tokens).
    repeat split.
    + unfold zip_with in *. cbn [map combine]. now rewrite E, IH1.
    + now constructor.
    + now rewrite IH3.
Qed.

Lemma zip_with_valid_keeps (vl ts : list xreal) :
  Forall (fun v => v = Fin 1) vl -> length vl = length ts ->
  zip_with (fun v t => if xltb (Fin 0) v then t else Fin 0) vl ts = ts.
Proof.
  intros H. revert ts.
  induction H as [|v l -> _ IH]; intros [|t ts] Hl; try discriminate;
    [reflexivity|].
  cbn [zip_with]. unfold zip_with in *. cbn [combine map].
  rewrite xltb_lt by lra. f_equal. apply IH. now injection Hl.
Qed.

Lemma block_loss_all_valid (c : nat) lg tk (vl : list xreal) ps :
  (0 < c)%nat ->
  Forall (fun v => v = Fin 1) vl ->
  length vl = c -> length ps = c ->
  zip_with (fun row tok => nth tok (log_softmax (D := ideal) row) NaN) lg tk
  = map Fin ps ->
  block_loss_contribution (D := ideal) (lg, tk, vl) = Fin (Rsum ps / INR c).
Proof.
  intros Hc Hv Hvl Hps E.
  unfold block_loss_contribution, block_valid_count, sum.
  cbn [add maximum div zero nan ideal lit_1e_10 ltb].
  rewrite E.
  assert (Hind : Forall indicator vl).
  { eapply Forall_impl; [|exact Hv]. intros v ->. now right. }
  rewrite (sum_indicators Hind).
  rewrite filter_all
    by (eapply Forall_impl; [|exact Hv]; intros v ->; apply xltb_lt; lra).
  rewrite zip_with_valid_keeps
    by (try assumption; rewrite length_map; lia).
  rewrite fold_xadd_fin, Hvl. cbn [xmax].
  assert (H1 : 1 <= INR c) by (apply (le_INR 1); lia).
  pose proof eps_lt_1.
  rewrite Rmax_left by lra. rewrite xdiv_pos by lra.
  f_equal. f_equal; lra.
Qed.

Lemma fold_real_fractions n (g : nat -> R) (c a : R) :
  fold_left xadd (tab n (fun i => Fin (g i / c))) (Fin a) =
  Fin (a + Rsum (tab n g) / c).
Proof.
  revert g a. induction n as [|n IH]; intros g a.
  - simpl. f_equal. unfold Rdiv. lra.
  - rewrite !tab_S. cbn [fold_left xadd].
    rewrite (IH (fun i => g (S i))).
    change (Rsum (g 0%nat :: tab n (fun i => g (S i))))
      with (g 0%nat + Rsum (tab n (fun i => g (S i)))).
    f_equal. unfold Rdiv. lra.
Qed.

(** X7.  With no mask, finite logits and targets inside the vocabulary,
    and whatever block size divides the number of positions, the loss is
    the mean over all positions of the negative log-probability of the
    target, and it is not negative. *)
Theorem loss_without_mask
    (xs : list (list (list R))) (tokens : list (list nat))
    (chunk_size : nat) :
  (0 < chunk_size)%nat ->
  (0 < length (concat tokens))%nat ->
  (length (concat tokens) mod chunk_size = 0)%nat ->
  Forall2 (fun row tok => (tok < length row)%nat)
          (concat xs) (concat tokens) ->
  let nll :=
    - Rsum (zip_with log_prob (concat xs) (concat tokens))
    / INR (length (concat tokens)) in
  0 <= nll /\
  exists accuracy,
    blockwise_cross_entropy (D := ideal) (map (map (map Fin)) xs) tokens
      chunk_size None = inr (Fin nll, accuracy).
Proof.
  intros Hc Hpos Hmod Hall nll.
  destruct (token_log_probs_fin Hall) as (EZ & Hle & HP).
  assert (Hlg : length (concat (map (map (map Fin)) xs))
                = length (concat tokens)).
  { rewrite <- concat_map, length_map. exact (Forall2_length Hall). }
  pose proof (@cross_entropy_closed_form xreal ideal
                (map (map (map Fin)) xs) tokens chunk_size None) as E.
  cbv zeta in E. change (@one xreal ideal) with (Fin 1) in E.
  rewrite Hlg, (length_concat_ones tokens (Fin 1)) in E.
  specialize (E Hc Hmod Hmod Hmod eq_refl eq_refl).
  rewrite <- concat_map in E, Hlg.
  set (X := concat xs) in *. set (T := concat tokens) in *.
  set (L := map (map Fin) X) in *.
  set (V := concat (map (map (fun _ => Fin 1)) tokens)) in *.
  set (P := zip_with log_prob X T) in *.
  assert (HV : length V = length T) by apply length_concat_ones.
  assert (Hones : Forall (fun v => v = Fin 1) V).
  { apply Forall_forall. intros v Hv. unfold V in Hv.
    apply in_concat in Hv as (row & Hrow & Hv).
    apply in_map_iff in Hrow as (r & <- & _).
    now apply in_map_iff in Hv as (t & <- & _). }
  set (n := (length T / chunk_size)%nat).
  assert (HT : length T = (n * chunk_size)%nat).
  { unfold n. apply Nat.Div0.div_exact in Hmod. lia. }
  assert (Hn : (0 < n)%nat) by nia.
  assert (HL : length L = (n * chunk_size)%nat) by lia.
  assert (HV' : length V = (n * chunk_size)%nat) by lia.
  assert (HP' : length P = (n * chunk_size)%nat) by lia.
  assert (Hc' : 0 < INR chunk_size) by (apply lt_0_INR; lia).
  assert (Hn' : 0 < INR n) by (apply lt_0_INR; lia).
  assert (HS : Rsum P <= 0) by now apply Rsum_nonpos.
  split.
  { unfold nll. unfold Rdiv. apply Rmult_le_pos; [lra|].
    left. apply Rinv_0_lt_compat. rewrite HT, mult_INR. nra. }
  rewrite (@chunks_as_tab _ chunk_size n L) in E by assumption.
  rewrite (@chunks_as_tab _ chunk_size n T) in E by assumption.
  rewrite (@chunks_as_tab _ chunk_size n V) in E by assumption.
  rewrite !combine_tab, tab_length in E.
  rewrite (map_tab (block_loss_contribution (D := ideal))) in E.
  rewrite (@tab_ext _ n _
             (fun i => Fin (Rsum (firstn chunk_size
                                    (skipn (i * chunk_size) P))
                            / INR chunk_size))) in E.
  2:{ intros i Hi.
      assert (Hvi : Forall (fun v => v = Fin 1)
                      (firstn chunk_size (skipn (i * chunk_size) V))).
      { apply Forall_forall. intros v Hv.
        rewrite Forall_forall in Hones. apply Hones.
        apply (in_chunks chunk_size V
                 (firstn chunk_size (skipn (i * chunk_size) V)));
          [|assumption].
        rewrite (@chunks_as_tab _ chunk_size n V) by assumption.
        unfold tab. apply in_map_iff. exists i.
        split; [reflexivity|apply in_seq; lia]. }
      apply (@block_loss_all_valid chunk_size _ _ _ _ Hc Hvi
               (@chunk_length _ chunk_size i n V HV' Hi)
               (@chunk_length _ chunk_size i n P HP' Hi)).
      rewrite zip_with_firstn, zip_with_skipn.
      change (@nan xreal ideal) with NaN. rewrite EZ.
      now rewrite skipn_map, firstn_map. }
  eexists. rewrite E. f_equal. f_equal.
  unfold sum. cbn [add zero div neg of_nat ideal].
  rewrite (fold_real_fractions n
             (fun i => Rsum (firstn chunk_size (skipn (i * chunk_size) P)))).
  rewrite <- (map_tab Rsum), <- (@chunks_as_tab _ chunk_size n P)
    by assumption.
  rewrite <- Rsum_concat, (@concat_chunks _ chunk_size n P) by assumption.
  cbn [xneg]. rewrite xdiv_pos by assumption. f_equal.
  unfold nll. rewrite HT, mult_INR. field. lra.
Qed.

Lemma loss_without_mask_witness :
  exists accuracy,
    blockwise_cross_entropy (D := ideal) Example3.logits Example3.tokens 1
      None
    = inr (Fin (- Rsum (zip_with log_prob [[0; 0]] [0%nat]) / INR 1),
           accuracy).
Proof.
  refine (proj2 (@loss_without_mask [[[0; 0]]] Example3.tokens 1 _ _ _ _)).
  - lia.
  - simpl. lia.
  - reflexivity.
  - constructor; [simpl; lia|constructor].
Defined.
End LossNoMask.
